(** * ppsci.loss.l1 : the L1 and periodic L1 losses

    A shallow embedding of [ppsci/loss/l1.py] (classes [L1Loss] and
    [PeriodicL1Loss]) and the properties of its two [forward] methods and
    constructors.

    Layout:
    - [Arith]: the scalar arithmetic of tensor elements, kept abstract
      (no algebraic law is assumed, so every generic theorem also covers
      rounding arithmetic), with an exact instance over [Q] for evaluation;
    - tensors as nested arrays with the broadcasting elementwise operations,
      the reductions and the leading-axis slices that the code calls from the
      tensor library;
    - Python objects: an object store for tensors (augmented assignment on
      a tensor is an update in place), dictionaries, exceptions;
    - the constructors and the two [forward] methods, statement by statement;
    - the declarative reading of the documentation, and the theorems. *)

From Stdlib Require Import QArith Qabs.
From stdpp Require Import gmap strings list fin_maps.

Local Open Scope string_scope.
Local Open Scope list_scope.
Local Open Scope nat_scope.
#[local] Set Warnings "-register-all".

(** ** Scalar arithmetic *)

Class Arith (num : Type) := {
  zero : num;
  add : num → num → num;
  sub : num → num → num;
  mul : num → num → num;
  div : num → num → num;
  absv : num → num;
  of_nat : nat → num;
}.

(** Exact rational arithmetic; every result is kept in lowest terms, so that
    equal values are equal terms.  [x / 0] is 0 in [Q], where floating-point
    arithmetic gives nan or an infinity: the mean of a tensor without
    elements is not what this instance computes. *)
#[export] Instance Q_Arith : Arith Q := {|
  zero := 0%Q;
  add x y := Qred (x + y)%Q;
  sub x y := Qred (x - y)%Q;
  mul x y := Qred (x * y)%Q;
  div x y := Qred (x / y)%Q;
  absv x := Qred (Qabs x);
  of_nat n := inject_Z (Z.of_nat n);
|}.

(** ** Exceptions *)

Inductive message :=
  | BadReduction (reduction : string)
      (* "reduction should be 'mean' or 'sum', but got {reduction}" *)
  | OddLength (n_output : nat) (key : string)
      (* "Length of output({n_output}) of key({key}) should be even." *)
  | Broadcast.
      (* operands could not be broadcast together (tensor library) *)

Inductive exn :=
  | ValueError (m : message)
  | KeyError (key : string)
  | AssertionError (* len() of a 0-D tensor *)
  | ScalarSlice    (* a slice [t[:n]] of a 0-D tensor, an error of the tensor
                      library; [forward] takes [len] first and never gets
                      there *)
  | Dangling.      (* a reference to no object; excluded by [valid] below *)

Inductive result (A : Type) :=
  | Ok (a : A)
  | Raise (e : exn).
Arguments Ok {A} a.
Arguments Raise {A} e.

Definition rbind {A B} (r : result A) (k : A → result B) : result B :=
  match r with Ok a => k a | Raise e => Raise e end.

Definition rmap {A B} (f : A → B) (r : result A) : result B :=
  match r with Ok a => Ok (f a) | Raise e => Raise e end.

(** [map] and [zip_with] for a function that can raise; the first exception,
    left to right, wins. *)
Definition mapR {A B} (f : A → result B) : list A → result (list B) :=
  fix go l :=
    match l with
    | [] => Ok []
    | x :: l' => rbind (f x) (λ y, rmap (cons y) (go l'))
    end.

Definition zipR {A B C} (f : A → B → result C) : list A → list B → result (list C) :=
  fix go l k :=
    match l, k with
    | x :: l', y :: k' => rbind (f x y) (λ z, rmap (cons z) (go l' k'))
    | _, _ => Ok []
    end.

(** ** Tensors *)

Section Tensor.
Context {num : Type} `{!Arith num}.

(** An n-dimensional array: a scalar (0-D), or the sequence of its entries
    along the leading axis. *)
Inductive tensor :=
  | Scal (x : num)
  | Arr (rows : list tensor).

Fixpoint shape (t : tensor) : list nat :=
  match t with
  | Scal _ => []
  | Arr rows => length rows :: match rows with [] => [] | r :: _ => shape r end
  end.

Definition ndim (t : tensor) : nat := length (shape t).

(** Every entry along every axis has the same shape. *)
Fixpoint rect (t : tensor) : bool :=
  match t with
  | Scal _ => true
  | Arr rows =>
      forallb rect rows &&
      match rows with
      | [] => true
      | r :: _ => forallb (λ r', bool_decide (shape r' = shape r)) rows
      end
  end.

(** All elements, in row-major order. *)
Fixpoint elements (t : tensor) : list num :=
  match t with
  | Scal x => [x]
  | Arr rows => concat (map elements rows)
  end.

Definition numel (t : tensor) : nat := length (elements t).

(** [len(t)] *)
Definition tensor_len (t : tensor) : result nat :=
  match t with
  | Scal _ => Raise AssertionError
  | Arr rows => Ok (length rows)
  end.

(** [t[:n]] and [t[n:]] *)
Definition slice_to (n : nat) (t : tensor) : result tensor :=
  match t with
  | Scal _ => Raise ScalarSlice
  | Arr rows => Ok (Arr (take n rows))
  end.

Definition slice_from (n : nat) (t : tensor) : result tensor :=
  match t with
  | Scal _ => Raise ScalarSlice
  | Arr rows => Ok (Arr (drop n rows))
  end.

(** Elementwise binary operation with broadcasting: shapes are aligned at
    their last axis; along an axis the lengths agree or one of them is 1. *)
Fixpoint broadcast (f : num → num → num) (a : tensor) {struct a}
    : tensor → result tensor :=
  fix go (b : tensor) {struct b} : result tensor :=
    match a, b with
    | Scal x, Scal y => Ok (Scal (f x y))
    | Scal _, Arr bs => rmap Arr (mapR go bs)
    | Arr as_, Scal _ => rmap Arr (mapR (λ ai, broadcast f ai b) as_)
    | Arr as_, Arr bs =>
        if ndim a <? ndim b then rmap Arr (mapR go bs)
        else if ndim b <? ndim a then
          rmap Arr (mapR (λ ai, broadcast f ai b) as_)
        else if length as_ =? length bs then
          rmap Arr (zipR (broadcast f) as_ bs)
        else
          match as_, bs with
          | [a0], _ => rmap Arr (mapR (broadcast f a0) bs)
          | _, [b0] => rmap Arr (mapR (λ ai, broadcast f ai b0) as_)
          | _, _ => Raise (ValueError Broadcast)
          end
    end.

(** Entry by entry, for two tensors of one shape. *)
Fixpoint zip_tensor (f : num → num → num) (a b : tensor) : tensor :=
  match a, b with
  | Scal x, Scal y => Scal (f x y)
  | Arr as_, Arr bs => Arr (zip_with (zip_tensor f) as_ bs)
  | _, _ => a
  end.

Definition sum_list (l : list num) : num := fold_left add l zero.

(** [F.l1_loss(x, y, "none")], [x * y], [x + y], [t.sum()], [t.mean()] *)
Definition abs_diff (a b : num) : num := absv (sub a b).
Definition l1_loss_none (x y : tensor) : result tensor := broadcast abs_diff x y.
Definition tensor_mul (x y : tensor) : result tensor := broadcast mul x y.
Definition tensor_add (x y : tensor) : result tensor := broadcast add x y.
Definition tensor_sum (t : tensor) : tensor := Scal (sum_list (elements t)).
Definition tensor_mean (t : tensor) : tensor :=
  Scal (div (sum_list (elements t)) (of_nat (numel t))).

End Tensor.
Arguments tensor num : clear implicits.

(** ** Python objects *)

(** Tensors are objects: a dictionary holds references to them, and an
    augmented assignment [t *= u] on a tensor updates the object bound to
    [t] in place.  The store lists the tensor objects; a reference is an
    index into it.  Dictionaries and the loss object are only read by the
    code below, which has no statement that assigns to a subscript or an
    attribute; they are passed as values. *)
Abbreviation loc := nat (only parsing).

(** The result of [forward] ([losses]): the Python float it starts as, or a
    tensor object once a tensor has been added to it. *)
Inductive pyval (num : Type) :=
  | PyFloat (x : num)
  | PyTensor (l : loc).
Arguments PyFloat {num} x.
Arguments PyTensor {num} l.

(** [Optional[Union[float, Dict[str, float]]]] *)
Inductive weight_t (num : Type) :=
  | WNone
  | WFloat (w : num)
  | WDict (d : gmap string num).
Arguments WNone {num}.
Arguments WFloat {num} w.
Arguments WDict {num} d.

(** The attributes of a loss object that [forward] reads. *)
Record Loss (num : Type) := mkLoss {
  reduction : string;
  weight : weight_t num;
}.
Arguments mkLoss {num} reduction weight.
Arguments reduction {num} _.
Arguments weight {num} _.

Section Objects.
Context {num : Type} `{!Arith num}.
#[local] Abbreviation tensor := (tensor num).
#[local] Abbreviation store := (list tensor).

(** Computations that read and update the store and can raise. *)
Definition M (A : Type) : Type := store → store * result A.

Definition ret {A} (a : A) : M A := λ s, (s, Ok a).
Definition raise {A} (e : exn) : M A := λ s, (s, Raise e).
Definition bind {A B} (m : M A) (k : A → M B) : M B :=
  λ s, match m s with
       | (s', Ok a) => k a s'
       | (s', Raise e) => (s', Raise e)
       end.
Definition lift {A} (r : result A) : M A := λ s, (s, r).

#[local] Notation "x ← m ; k" := (bind m (λ x, k))
  (at level 20, m at level 100, k at level 200, only parsing).
#[local] Notation "m ;; k" := (bind m (λ _, k))
  (at level 100, k at level 200, right associativity, only parsing).

Definition alloc (t : tensor) : M loc := λ s, (s ++ [t], Ok (length s)).
Definition deref (l : loc) : M tensor :=
  λ s, (s, match s !! l with Some t => Ok t | None => Raise Dangling end).
Definition assign (l : loc) (t : tensor) : M unit := λ s, (<[l:=t]> s, Ok tt).

(** [d[key]] on a [dict], and on a dictionary kept with its insertion order
    (the order in which [for key in d] yields the keys). *)
Definition getitem (d : gmap string loc) (key : string) : M loc :=
  match d !! key with
  | Some l => ret l
  | None => raise (KeyError key)
  end.

Fixpoint assoc {V} (d : list (string * V)) (key : string) : option V :=
  match d with
  | [] => None
  | (k, v) :: d' => if decide (k = key) then Some v else assoc d' key
  end.

Definition getitem_ordered (d : list (string * loc)) (key : string) : M loc :=
  match assoc d key with
  | Some l => ret l
  | None => raise (KeyError key)
  end.

Definition keys {V} (d : list (string * V)) : list string := map fst d.

(** [for x in l: acc = body(acc, x)] *)
Fixpoint for_each {A S} (l : list A) (acc : S) (body : S → A → M S) : M S :=
  match l with
  | [] => ret acc
  | x :: l' => acc' ← body acc x; for_each l' acc' body
  end.

(** *** The tensor library on objects *)

(** [F.l1_loss(x, y, "none")]: a new tensor. *)
Definition F_l1_loss (x y : loc) : M loc :=
  a ← deref x; b ← deref y; t ← lift (l1_loss_none a b); alloc t.

(** [len(x)], [x[:n]], [x[n:]] (new tensors), [x.sum()], [x.mean()] *)
Definition len (x : loc) : M nat := a ← deref x; lift (tensor_len a).
Definition getslice_to (x : loc) (n : nat) : M loc :=
  a ← deref x; t ← lift (slice_to n a); alloc t.
Definition getslice_from (x : loc) (n : nat) : M loc :=
  a ← deref x; t ← lift (slice_from n a); alloc t.
Definition t_sum (x : loc) : M loc := a ← deref x; alloc (tensor_sum a).
Definition t_mean (x : loc) : M loc := a ← deref x; alloc (tensor_mean a).

(** [x *= y] for a tensor [y], and for a Python float [w] *)
Definition imul (x y : loc) : M unit :=
  a ← deref x; b ← deref y; t ← lift (tensor_mul a b); assign x t.
Definition imul_float (x : loc) (w : num) : M unit :=
  a ← deref x; t ← lift (tensor_mul a (Scal w)); assign x t.

(** [losses += loss]: a float is immutable, so the sum is a new tensor bound
    to [losses]; a tensor is updated in place. *)
Definition iadd (losses : pyval num) (loss : loc) : M (pyval num) :=
  match losses with
  | PyFloat x =>
      b ← deref loss; t ← lift (tensor_add (Scal x) b);
      l ← alloc t; ret (PyTensor l)
  | PyTensor l =>
      a ← deref l; b ← deref loss; t ← lift (tensor_add a b);
      assign l t;; ret (PyTensor l)
  end.

(** ** base.Loss *)

(** Modelled from the spec: [base.Loss.__init__], the constructor of the
    base class, defined in [ppsci/loss/base.py] and not in [l1.py].  The
    reduction mode and the weight configuration are "set at construction"
    and "immutable": the constructor stores its two arguments as the
    attributes [reduction] and [weight] that [forward] reads. *)
Definition Loss_init (reduction : string) (weight : weight_t num) : result (Loss num) :=
  Ok (mkLoss reduction weight).

(** ** L1Loss *)

(** [L1Loss.__init__] *)
Definition L1Loss_init (reduction : string) (weight : weight_t num) : result (Loss num) :=
  if bool_decide (reduction ∉ ["mean"; "sum"]) then
    Raise (ValueError (BadReduction reduction))
  else Loss_init reduction weight.

(** The statement that occurs three times in the file:
<<
    if isinstance(self.weight, float):
        loss *= self.weight
    elif isinstance(self.weight, dict) and key in self.weight:
        loss *= self.weight[key]
>> *)
Definition times_self_weight (self : Loss num) (key : string) (loss : loc) : M unit :=
  match weight self with
  | WFloat w => imul_float loss w
  | WDict d =>
      match d !! key with
      | Some w => imul_float loss w
      | None => ret tt
      end
  | WNone => ret tt
  end.

(** <<
    if self.reduction == "sum":
        loss = loss.sum()
    elif self.reduction == "mean":
        loss = loss.mean()
>> *)
Definition reduce (self : Loss num) (loss : loc) : M loc :=
  if decide (reduction self = "sum") then t_sum loss
  else if decide (reduction self = "mean") then t_mean loss
  else ret loss.

(** <<
    if weight_dict is not None:
        loss *= weight_dict[key]
>> *)
Definition times_weight_dict (weight_dict : option (gmap string loc))
    (key : string) (loss : loc) : M unit :=
  match weight_dict with
  | Some wd => w ← getitem wd key; imul loss w
  | None => ret tt
  end.

(** <<
    if "area" in output_dict:
        loss *= output_dict["area"]
>> *)
Definition times_area (output_dict : gmap string loc) (loss : loc) : M unit :=
  match output_dict !! "area" with
  | Some a => imul loss a
  | None => ret tt
  end.

(** The body of the loop of [L1Loss.forward]. *)
Definition L1Loss_body (self : Loss num) (output_dict : gmap string loc)
    (label_dict : list (string * loc)) (weight_dict : option (gmap string loc))
    (losses : pyval num) (key : string) : M (pyval num) :=
  x ← getitem output_dict key;
  y ← getitem_ordered label_dict key;
  loss ← F_l1_loss x y;
  times_weight_dict weight_dict key loss;;
  times_self_weight self key loss;;
  times_area output_dict loss;;
  loss ← reduce self loss;
  times_self_weight self key loss;;
  iadd losses loss.

(** [L1Loss.forward] *)
Definition L1Loss_forward (self : Loss num) (output_dict : gmap string loc)
    (label_dict : list (string * loc)) (weight_dict : option (gmap string loc))
    : M (pyval num) :=
  for_each (keys label_dict) (PyFloat zero)
    (L1Loss_body self output_dict label_dict weight_dict).

(** ** PeriodicL1Loss *)

(** [PeriodicL1Loss.__init__] *)
Definition PeriodicL1Loss_init (reduction : string) (weight : weight_t num)
    : result (Loss num) :=
  if bool_decide (reduction ∉ ["mean"; "sum"]) then
    Raise (ValueError (BadReduction reduction))
  else Loss_init reduction weight.

(** The body of the loop of [PeriodicL1Loss.forward]. *)
Definition PeriodicL1Loss_body (self : Loss num) (output_dict : gmap string loc)
    (weight_dict : option (gmap string loc))
    (losses : pyval num) (key : string) : M (pyval num) :=
  x ← getitem output_dict key;
  n_output ← len x;
  if 0 <? n_output mod 2 then raise (ValueError (OddLength n_output key))
  else
    let n_output := n_output / 2 in
    x ← getitem output_dict key;
    lo ← getslice_to x n_output;
    x ← getitem output_dict key;
    hi ← getslice_from x n_output;
    loss ← F_l1_loss lo hi;
    times_weight_dict weight_dict key loss;;
    times_area output_dict loss;;
    loss ← reduce self loss;
    times_self_weight self key loss;;
    iadd losses loss.

(** [PeriodicL1Loss.forward] *)
Definition PeriodicL1Loss_forward (self : Loss num) (output_dict : gmap string loc)
    (label_dict : list (string * loc)) (weight_dict : option (gmap string loc))
    : M (pyval num) :=
  for_each (keys label_dict) (PyFloat zero)
    (PeriodicL1Loss_body self output_dict weight_dict).

(** The tensor that a result of [forward] denotes in the store it left. *)
Definition value_of (s : store) (v : pyval num) : option tensor :=
  match v with
  | PyFloat x => Some (Scal x)
  | PyTensor l => s !! l
  end.

(** What a run returned, as a tensor, or what it raised. *)
Definition returned (run : store * result (pyval num)) : result (option tensor) :=
  rmap (value_of run.1) run.2.

End Objects.

(** ** The documented computation, on tensors

    What the documentation says [forward] computes, as functions of the
    tensors alone: no store, no object identity, no statement order. *)

Section Reading.
Context {num : Type} `{!Arith num}.
#[local] Abbreviation tensor := (tensor num).
#[local] Abbreviation store := (list tensor).

(** The tensors that a dictionary of references denotes in a store. *)
Definition tensors (s : store) (d : gmap string loc) : gmap string tensor :=
  omap (λ l, s !! l) d.

Definition tensors_ordered (s : store) (d : list (string * loc))
    : list (string * tensor) :=
  omap (λ kl, pair kl.1 <$> s !! kl.2) d.

(** Every reference held by the dictionary is to an object of the store. *)
Definition valid (s : store) (d : gmap string loc) : Prop :=
  map_Forall (λ _ l, l < length s) d.

Definition valid_ordered (s : store) (d : list (string * loc)) : Prop :=
  Forall (λ kl, kl.2 < length s) d.

Definition valid_option (s : store) (d : option (gmap string loc)) : Prop :=
  match d with Some d => valid s d | None => True end.

(** The constructor-supplied weight that applies to a key, if any. *)
Definition weight_for (w : weight_t num) (key : string) : option num :=
  match w with
  | WNone => None
  | WFloat x => Some x
  | WDict d => d !! key
  end.

(** The stages of the weighting. *)
Definition scaled (w : option num) (t : tensor) : result tensor :=
  match w with
  | Some x => tensor_mul t (Scal x)
  | None => Ok t
  end.

Definition dict_weighted (weight_dict : option (gmap string tensor))
    (key : string) (t : tensor) : result tensor :=
  match weight_dict with
  | None => Ok t
  | Some wd =>
      match wd !! key with
      | Some w => tensor_mul t w
      | None => Raise (KeyError key)
      end
  end.

Definition area_weighted (area : option tensor) (t : tensor) : result tensor :=
  match area with
  | Some a => tensor_mul t a
  | None => Ok t
  end.

Definition reduced (reduction : string) (t : tensor) : tensor :=
  if decide (reduction = "sum") then tensor_sum t
  else if decide (reduction = "mean") then tensor_mean t
  else t.

(** The elementwise loss of a key: |output - label| for the L1 loss, |first
    half - second half| of the output for the periodic loss. *)
Definition l1_elementwise (output : gmap string tensor)
    (label : list (string * tensor)) (key : string) : result tensor :=
  match output !! key with
  | None => Raise (KeyError key)
  | Some x =>
      match assoc label key with
      | None => Raise (KeyError key)
      | Some y => l1_loss_none x y
      end
  end.

Definition periodic_elementwise (output : gmap string tensor) (key : string)
    : result tensor :=
  match output !! key with
  | None => Raise (KeyError key)
  | Some (Scal _) => Raise AssertionError
  | Some (Arr rows) =>
      if Nat.even (length rows) then
        l1_loss_none (Arr (take (length rows / 2) rows))
                     (Arr (drop (length rows / 2) rows))
      else Raise (ValueError (OddLength (length rows) key))
  end.

(** The loss of a key from its elementwise loss [e], in three steps: the
    weights that multiply the elementwise loss (the entry of [weight_dict],
    then the constructor's weight if [pre]); the area; the reduction, followed
    by the constructor's weight. *)
Definition weighted_before_area (pre : bool) (self : Loss num)
    (weight_dict : option (gmap string tensor)) (key : string) (e : tensor)
    : result tensor :=
  rbind (dict_weighted weight_dict key e) (λ e1,
  if pre then scaled (weight_for (weight self) key) e1 else Ok e1).

Definition reduced_and_weighted (self : Loss num) (key : string) (e : tensor)
    : result tensor :=
  scaled (weight_for (weight self) key) (reduced (reduction self) e).

Definition contribution (pre : bool) (self : Loss num)
    (area : option tensor) (weight_dict : option (gmap string tensor))
    (key : string) (e : tensor) : result tensor :=
  rbind (weighted_before_area pre self weight_dict key e) (λ e2,
  rbind (area_weighted area e2) (reduced_and_weighted self key)).

(** The sum over the keys, from the left, starting from 0.0. *)
Fixpoint total_from (acc : tensor) (c : string → result tensor)
    (ks : list string) : result tensor :=
  match ks with
  | [] => Ok acc
  | k :: ks' =>
      rbind (c k) (λ v, rbind (tensor_add acc v) (λ acc', total_from acc' c ks'))
  end.

Definition total (c : string → result tensor) (ks : list string) : result tensor :=
  total_from (Scal zero) c ks.

Definition L1_loss (self : Loss num) (output : gmap string tensor)
    (label : list (string * tensor))
    (weight_dict : option (gmap string tensor)) (key : string) : result tensor :=
  rbind (l1_elementwise output label key)
        (contribution true self (output !! "area") weight_dict key).

Definition periodic_loss (self : Loss num) (output : gmap string tensor)
    (weight_dict : option (gmap string tensor)) (key : string) : result tensor :=
  rbind (periodic_elementwise output key)
        (contribution false self (output !! "area") weight_dict key).

(** How a run of [forward] that left the store [s'] with the outcome [r]
    matches a documented outcome [d]: the same exception, or a result that
    denotes the documented tensor. *)
Definition agrees (s' : store) (r : result (pyval num)) (d : result tensor) : Prop :=
  match d with
  | Raise e => r = Raise e
  | Ok t => ∃ v, r = Ok v ∧ value_of s' v = Some t
  end.

(** A documented outcome that, if it is a tensor, is a single scalar. *)
Definition scalar_or_raises (d : result tensor) : Prop :=
  match d with
  | Ok t => ∃ x, t = Scal x
  | Raise _ => True
  end.

(** *** The weight of the constructor, spelled out

    The loss of a key whose constructor-supplied weight is [w], when [w]
    multiplies the loss before the reduction and again after it, and when it
    multiplies the reduced loss only; and the loss of a key that has no such
    weight. *)
Definition weighted_twice (w : num) (reduction : string) (area : option tensor)
    (weight_dict : option (gmap string tensor)) (key : string) (e : tensor)
    : result tensor :=
  rbind (dict_weighted weight_dict key e) (λ e1,
  rbind (tensor_mul e1 (Scal w)) (λ e2,
  rbind (area_weighted area e2) (λ e3,
  tensor_mul (reduced reduction e3) (Scal w)))).

Definition weighted_after (w : num) (reduction : string) (area : option tensor)
    (weight_dict : option (gmap string tensor)) (key : string) (e : tensor)
    : result tensor :=
  rbind (dict_weighted weight_dict key e) (λ e1,
  rbind (area_weighted area e1) (λ e3,
  tensor_mul (reduced reduction e3) (Scal w))).

Definition unweighted (reduction : string) (area : option tensor)
    (weight_dict : option (gmap string tensor)) (key : string) (e : tensor)
    : result tensor :=
  rbind (dict_weighted weight_dict key e) (λ e1,
  rbind (area_weighted area e1) (λ e3, Ok (reduced reduction e3))).

Definition keyed_loss (twice : bool) (self : Loss num) (area : option tensor)
    (weight_dict : option (gmap string tensor)) (key : string) (e : tensor)
    : result tensor :=
  match weight_for (weight self) key with
  | Some w =>
      if twice then weighted_twice w (reduction self) area weight_dict key e
      else weighted_after w (reduction self) area weight_dict key e
  | None => unweighted (reduction self) area weight_dict key e
  end.

(** "The weight enters the per-key result twice", for each variant, and
    "once, after the reduction", for the periodic one. *)
Definition L1_weight_twice (self : Loss num) (output_dict : gmap string loc)
    (label_dict : list (string * loc)) (weight_dict : option (gmap string loc))
    (s : store) : Prop :=
  let run := L1Loss_forward self output_dict label_dict weight_dict s in
  agrees run.1 run.2
    (total (λ key,
       rbind (l1_elementwise (tensors s output_dict)
                (tensors_ordered s label_dict) key)
             (keyed_loss true self (tensors s output_dict !! "area")
                (tensors s <$> weight_dict) key))
       (keys label_dict)).

Definition periodic_weight (twice : bool) (self : Loss num)
    (output_dict : gmap string loc) (label_dict : list (string * loc))
    (weight_dict : option (gmap string loc)) (s : store) : Prop :=
  let run := PeriodicL1Loss_forward self output_dict label_dict weight_dict s in
  agrees run.1 run.2
    (total (λ key,
       rbind (periodic_elementwise (tensors s output_dict) key)
             (keyed_loss twice self (tensors s output_dict !! "area")
                (tensors s <$> weight_dict) key))
       (keys label_dict)).

(** *** Odd leading dimensions *)

(** The output tensor of [key] has the odd leading dimension [n]. *)
Definition odd_length (output : gmap string tensor) (key : string) (n : nat) : Prop :=
  ∃ rows, output !! key = Some (Arr rows) ∧ length rows = n ∧ Nat.odd n = true.

(** "[forward] raises a ValueError for the first key of [label_dict] whose
    output has an odd leading dimension." *)
Definition raises_for_first_odd_key (self : Loss num)
    (output_dict : gmap string loc) (label_dict : list (string * loc))
    (weight_dict : option (gmap string loc)) (s : store) : Prop :=
  ∀ before key y after n,
    label_dict = before ++ (key, y) :: after →
    (∀ k m, k ∈ keys before → ¬ odd_length (tensors s output_dict) k m) →
    odd_length (tensors s output_dict) key n →
    (PeriodicL1Loss_forward self output_dict label_dict weight_dict s).2
    = Raise (ValueError (OddLength n key)).

(** *** The two halves of an output *)

(** For a tensor of leading dimension 2n: entry i is the entrywise absolute
    difference of its entries i and n + i. *)
Definition halves_abs_diff (x : tensor) : tensor :=
  match x with
  | Scal _ => x
  | Arr rows =>
      let n := length rows / 2 in
      Arr (zip_with (zip_tensor abs_diff) (take n rows) (drop n rows))
  end.

(** *** Runs of the loop body

    The accumulator [losses] denotes [acc], in an object that is not one of
    the caller's (those of the store [s0] at the call). *)
Definition losses_ok (s0 s : store) (losses : pyval num) (acc : tensor) : Prop :=
  match losses with
  | PyFloat x => acc = Scal x
  | PyTensor l => length s0 ≤ l ∧ s !! l = Some acc
  end.

(** The outcome of one more key: the exception, or the new accumulator. *)
Definition step_ok (s0 s' : store) (r : result (pyval num)) (d : result tensor) : Prop :=
  match d with
  | Raise e => r = Raise e
  | Ok acc' => ∃ losses', r = Ok losses' ∧ losses_ok s0 s' losses' acc'
  end.

(** An update in place of the newest object, [a], with [r]. *)
Definition upd_last (s : store) (a : tensor) (r : result tensor) : store * result unit :=
  match r with
  | Ok t => (s ++ [t], Ok tt)
  | Raise e => (s ++ [a], Raise e)
  end.

(** The statements that the two loop bodies share, from the first weighting
    of [loss] on; [pre] tells whether the constructor's weight is applied
    before the area. *)
Definition weigh_reduce_add (pre : bool) (self : Loss num)
    (output_dict : gmap string loc) (weight_dict : option (gmap string loc))
    (losses : pyval num) (key : string) (loss : loc) : M (pyval num) :=
  bind (times_weight_dict weight_dict key loss) (λ _,
  bind ((if pre then times_self_weight self key loss else ret tt)) (λ _,
  bind (times_area output_dict loss) (λ _,
  bind (reduce self loss) (λ loss,
  bind (times_self_weight self key loss) (λ _,
  iadd losses loss))))).

End Reading.

(** ** Exact arithmetic: the formula of the documentation *)

Definition Qsum (l : list Q) : Q := fold_right Qplus 0%Q l.

(** |x_i - y_i|, for all i *)
Definition abs_differences (x y : tensor Q) : list Q :=
  zip_with (λ a b, Qabs (a - b)%Q) (elements x) (elements y).

(** (1/N) * sum_i |x_i - y_i| if reduction = "mean", sum_i |x_i - y_i| if
    reduction = "sum" *)
Definition documented_L1 (reduction : string) (x y : tensor Q) : Q :=
  if decide (reduction = "mean") then
    ((1 / inject_Z (Z.of_nat (numel x))) * Qsum (abs_differences x y))%Q
  else Qsum (abs_differences x y).

Definition documented_L1_of_key (reduction : string)
    (output : gmap string (tensor Q)) (label : list (string * tensor Q))
    (key : string) : Q :=
  match output !! key, assoc label key with
  | Some x, Some y => documented_L1 reduction x y
  | _, _ => 0%Q
  end.

(** ** Sample calls *)

Module Sample.

(** Two fields [u] and [v]: outputs of 2 and 3 samples, then their labels,
    then an area of one entry per pair of samples of [u]. *)
Definition store : list (tensor Q) :=
  [ Arr [Scal 1%Q; Scal 3%Q];
    Arr [Scal 1%Q; Scal 2%Q; Scal 4%Q];
    Arr [Scal 2%Q; Scal 1%Q];
    Arr [Scal 0%Q; Scal 0%Q; Scal 0%Q];
    Arr [Scal 5%Q] ].

Definition output_u : gmap string loc := {[ "u" := 0 ]}.
Definition output_uv : gmap string loc := <[ "v" := 1 ]> output_u.
Definition output_u_area : gmap string loc := <[ "area" := 4 ]> output_u.
Definition label_u : list (string * loc) := [("u", 2)].
Definition label_uv : list (string * loc) := [("u", 2); ("v", 3)].
Definition output_uv_more : gmap string loc := <[ "p" := 2 ]> output_uv.
Definition label_u_other : list (string * loc) := [("u", 3)].
Definition weights_v : gmap string loc := {[ "v" := 4 ]}.
Definition weights_uv : gmap string loc := <[ "u" := 4 ]> weights_v.

(** The same outputs, other labels. *)
Definition store_other_labels : list (tensor Q) :=
  [ Arr [Scal 1%Q; Scal 3%Q];
    Arr [Scal 1%Q; Scal 2%Q; Scal 4%Q];
    Arr [Scal 7%Q; Scal 7%Q];
    Arr [Scal 9%Q; Scal 9%Q; Scal 9%Q];
    Arr [Scal 5%Q] ].

Definition mean_unweighted : Loss Q := mkLoss "mean" WNone.
Definition mean_twice : Loss Q := mkLoss "mean" (WFloat 2%Q).

End Sample.

(** ** Further notions *)

Section Further.
Context {num : Type} `{!Arith num}.
#[local] Abbreviation tensor := (tensor num).
#[local] Abbreviation store := (list tensor).

(** The run returned, and what it returned denotes the tensor [t]. *)
Definition returns (run : store * result (pyval num)) (t : tensor) : Prop :=
  ∃ v, run.2 = Ok v ∧ value_of run.1 v = Some t.

(** Two tensors of one shape whose elements are related by [R], place by
    place. *)
Fixpoint tensor_rel (R : num → num → Prop) (t t' : tensor) {struct t} : Prop :=
  match t, t' with
  | Scal x, Scal x' => R x x'
  | Arr rows, Arr rows' =>
      (fix go rows rows' : Prop :=
         match rows, rows' with
         | [], [] => True
         | r :: rs, r' :: rs' => tensor_rel R r r' ∧ go rs rs'
         | _, _ => False
         end) rows rows'
  | _, _ => False
  end.

End Further.

Module More_samples.

(** The outputs and the labels of [Sample] in each other's place. *)
Definition output_swapped : gmap string loc := <[ "v" := 3 ]> {[ "u" := 2 ]}.
Definition label_swapped : list (string * loc) := [("u", 0); ("v", 1)].

(** The weight 2.0 for each field, as a dictionary. *)
Definition mean_twice_by_field : Loss Q :=
  mkLoss "mean" (WDict (<[ "u" := 2%Q ]> {[ "v" := 2%Q ]})).

(** Two fields with an even number of samples, [u] and [w], for the
    periodic loss; the labels are not read. *)
Definition periodic_store : list (tensor Q) :=
  [ Arr [Scal 1%Q; Scal 3%Q];
    Arr [Scal 2%Q; Scal 2%Q; Scal 5%Q; Scal 1%Q] ].
Definition output_uw : gmap string loc := <[ "w" := 1 ]> {[ "u" := 0 ]}.
Definition label_u : list (string * loc) := [("u", 0)].
Definition label_w : list (string * loc) := [("w", 1)].

End More_samples.

(** ** The formula of the documentation, in the tensors' arithmetic *)

Section Formula.
Context {num : Type} `{!Arith num}.
#[local] Abbreviation tensor := (tensor num).

(** sum_i |x_i - y_i| over the elements of [x] and [y] taken in order, for
    the reduction "sum"; that sum divided by N, the number of elements of
    [x], for "mean".  The operations are those of the tensors' elements, the
    sum is taken from the left, starting from zero. *)
Definition mean_or_sum_abs_diff (reduction : string) (x y : tensor) : num :=
  let d := sum_list (zip_with abs_diff (elements x) (elements y)) in
  if decide (reduction = "mean") then div d (of_nat (numel x)) else d.

Definition mean_or_sum_abs_diff_of_key (reduction : string)
    (output : gmap string tensor) (label : list (string * tensor))
    (key : string) : num :=
  match output !! key, assoc label key with
  | Some x, Some y => mean_or_sum_abs_diff reduction x y
  | _, _ => zero
  end.

End Formula.

(** "The per-key contribution equals (1/N) * sum_i |x_i - y_i| for "mean" and
    sum_i |x_i - y_i| for "sum"", in exact arithmetic, for a call without
    [weight_dict]: [forward] returns the sum of that formula over the keys. *)
Definition L1_is_documented_formula (self : Loss Q)
    (output_dict : gmap string loc) (label_dict : list (string * loc))
    (s : list (tensor Q)) : Prop :=
  ∃ q, returns (L1Loss_forward self output_dict label_dict None s) (Scal q)
       ∧ (q == Qsum (map (documented_L1_of_key (reduction self)
                            (tensors s output_dict)
                            (tensors_ordered s label_dict))
                       (keys label_dict)))%Q.

Module Broadcast_sample.

(** A field [u] whose output is a column, of shape [2, 1], and whose label
    is a vector, of shape [2]: the two broadcast to the shape [2, 2]. *)
Definition store : list (tensor Q) :=
  [ Arr [Arr [Scal 1%Q]; Arr [Scal 3%Q]];
    Arr [Scal 2%Q; Scal 1%Q] ].
Definition output_u : gmap string loc := {[ "u" := 0 ]}.
Definition label_u : list (string * loc) := [("u", 1)].

Definition sum_unweighted : Loss Q := mkLoss "sum" WNone.

End Broadcast_sample.

(** * Proofs *)

(** ** Tensors of one shape *)

Section TensorFacts.
Context {num : Type} `{!Arith num}.
#[local] Abbreviation tensor := (tensor num).

Lemma tensor_rows_ind (P : tensor → Prop) :
  (∀ x, P (Scal x)) →
  (∀ rows, Forall P rows → P (Arr rows)) →
  ∀ t, P t.
Proof.
  intros HS HA. fix IH 1. intros [x|rows]; [apply HS|].
  apply HA. induction rows as [|r rows IHrows]; constructor; [apply IH|apply IHrows].
Qed.

Lemma broadcast_Arr_Arr f (as_ bs : list tensor) :
  broadcast f (Arr as_) (Arr bs)
  = if ndim (Arr as_) <? ndim (Arr bs) then rmap Arr (mapR (broadcast f (Arr as_)) bs)
    else if ndim (Arr bs) <? ndim (Arr as_) then
      rmap Arr (mapR (λ ai, broadcast f ai (Arr bs)) as_)
    else if length as_ =? length bs then rmap Arr (zipR (broadcast f) as_ bs)
    else match as_, bs with
         | [a0], _ => rmap Arr (mapR (broadcast f a0) bs)
         | _, [b0] => rmap Arr (mapR (λ ai, broadcast f ai b0) as_)
         | _, _ => Raise (ValueError Broadcast)
         end.
Proof. reflexivity. Qed.

Lemma rect_Arr (rows : list tensor) :
  rect (Arr rows) = true →
  Forall (λ r, rect r = true) rows
  ∧ ∀ r r', r ∈ rows → r' ∈ rows → shape r = shape r'.
Proof.
  cbn [rect]. intros [Hr Hs]%andb_prop. split.
  - apply Forall_forall. intros r Hin. rewrite forallb_forall in Hr.
    apply Hr. by apply list_elem_of_In.
  - destruct rows as [|r0 rows]; [by intros ? ? ?%elem_of_nil|].
    rewrite forallb_forall in Hs. intros r r' Hin Hin'.
    apply list_elem_of_In, Hs, bool_decide_eq_true_1 in Hin.
    apply list_elem_of_In, Hs, bool_decide_eq_true_1 in Hin'. congruence.
Qed.

Lemma zipR_same_shape f (as_ bs : list tensor) :
  Forall (λ a, ∀ b, rect a = true → rect b = true → shape a = shape b →
               broadcast f a b = Ok (zip_tensor f a b)) as_ →
  Forall (λ r, rect r = true) as_ → Forall (λ r, rect r = true) bs →
  (∀ a b, a ∈ as_ → b ∈ bs → shape a = shape b) →
  zipR (broadcast f) as_ bs = Ok (zip_with (zip_tensor f) as_ bs).
Proof.
  intros IH. revert bs. induction IH as [|a as_ Ha _ IH]; intros bs Hra Hrb Hsh.
  - by destruct bs.
  - destruct bs as [|b bs]; [done|]. cbn [zipR zip_with].
    inversion_clear Hra. inversion_clear Hrb.
    rewrite Ha by (try done; apply Hsh; left). cbn [rbind].
    fold (zipR (broadcast f)). rewrite IH; [done|done..|].
    intros a' b' ? ?. apply Hsh; by right.
Qed.

Lemma broadcast_same_shape f (a b : tensor) :
  rect a = true → rect b = true → shape a = shape b →
  broadcast f a b = Ok (zip_tensor f a b).
Proof.
  revert b. induction a as [x|as_ IH] using tensor_rows_ind; intros [y|bs] Hra Hrb Hsh;
    try done.
  rewrite broadcast_Arr_Arr. unfold ndim. rewrite Hsh, Nat.ltb_irrefl.
  cbn [shape] in Hsh. injection Hsh as Hlen Hhd.
  rewrite Hlen, Nat.eqb_refl.
  apply rect_Arr in Hra as [Hra Hsa]. apply rect_Arr in Hrb as [Hrb Hsb].
  rewrite (zipR_same_shape f as_ bs); [done|done..|].
  intros a b Ha Hb.
  destruct as_ as [|a0 as_]; [by apply elem_of_nil in Ha|].
  destruct bs as [|b0 bs]; [by apply elem_of_nil in Hb|].
  rewrite (Hsa a a0), (Hsb b b0); [done|done|left|done|left].
Qed.

Lemma rect_Arr_intro (rows : list tensor) :
  Forall (λ r, rect r = true) rows →
  (∀ r r', r ∈ rows → r' ∈ rows → shape r = shape r') →
  rect (Arr rows) = true.
Proof.
  intros Hr Hs. cbn [rect]. apply andb_true_intro. split.
  - apply forallb_forall. intros r Hin%list_elem_of_In.
    by eapply Forall_forall in Hr.
  - destruct rows as [|r0 rows]; [done|]. apply forallb_forall.
    intros r Hin%list_elem_of_In. apply bool_decide_eq_true_2, Hs; [done|left].
Qed.

Lemma rect_sublist (rows rows' : list tensor) :
  rect (Arr rows) = true → rows' ⊆ rows → rect (Arr rows') = true.
Proof.
  intros [Hr Hs]%rect_Arr Hsub. apply rect_Arr_intro.
  - apply Forall_forall. intros r Hin. eapply Forall_forall in Hr; eauto.
  - intros r r' Hin Hin'. apply Hs; auto.
Qed.

Lemma shape_halves (rows : list tensor) n :
  rect (Arr rows) = true → length rows = 2 * n →
  shape (Arr (take n rows)) = shape (Arr (drop n rows)).
Proof.
  intros [_ Hs]%rect_Arr Hlen. cbn [shape].
  rewrite length_take, length_drop. f_equal; [lia|].
  destruct (take n rows) as [|r t] eqn:Ht, (drop n rows) as [|r' d] eqn:Hd; try done.
  - apply (f_equal length) in Ht, Hd. rewrite length_take in Ht.
    rewrite length_drop in Hd. simpl in *. lia.
  - apply (f_equal length) in Ht, Hd. rewrite length_take in Ht.
    rewrite length_drop in Hd. simpl in *. lia.
  - apply Hs.
    + apply (subseteq_take n). rewrite Ht. left.
    + apply (subseteq_drop n). rewrite Hd. left.
Qed.

Lemma even_half n : Nat.even n = true → n = 2 * (n / 2).
Proof.
  intros [k ->]%Nat.even_spec. replace (2 * k) with (k * 2) by lia.
  rewrite Nat.div_mul by done. lia.
Qed.

Lemma zip_elements (f : num → num → num) (g : tensor → tensor → tensor)
    (as_ bs : list tensor) :
  Forall2 (λ a b, elements (g a b) = zip_with f (elements a) (elements b)
                  ∧ length (elements a) = length (elements b)) as_ bs →
  concat (map elements (zip_with g as_ bs))
  = zip_with f (concat (map elements as_)) (concat (map elements bs))
  ∧ length (concat (map elements as_)) = length (concat (map elements bs)).
Proof.
  induction 1 as [|a b as_ bs [He Hl] _ [IH1 IH2]]; [done|].
  cbn [zip_with map concat]. split.
  - rewrite zip_with_app by done. by rewrite He, IH1.
  - rewrite !length_app. by rewrite Hl, IH2.
Qed.

Lemma elements_zip_tensor f (a b : tensor) :
  rect a = true → rect b = true → shape a = shape b →
  elements (zip_tensor f a b) = zip_with f (elements a) (elements b)
  ∧ length (elements a) = length (elements b).
Proof.
  revert b. induction a as [x|as_ IH] using tensor_rows_ind; intros [y|bs] Hra Hrb Hsh;
    try done.
  cbn [shape] in Hsh. injection Hsh as Hlen Hhd.
  apply rect_Arr in Hra as [Hra Hsa]. apply rect_Arr in Hrb as [Hrb Hsb].
  cbn [zip_tensor elements]. apply zip_elements.
  apply Forall2_same_length_lookup_2; [done|].
  intros i a b Ha Hb.
  eapply Forall_lookup_1 in IH; [|exact Ha].
  apply IH.
  - by eapply Forall_lookup_1 in Hra.
  - by eapply Forall_lookup_1 in Hrb.
  - destruct as_ as [|a0 as_]; [done|]. destruct bs as [|b0 bs]; [done|].
    rewrite (Hsa a a0), (Hsb b b0); [done|..].
    + by eapply list_elem_of_lookup_2.
    + left.
    + by eapply list_elem_of_lookup_2.
    + left.
Qed.
End TensorFacts.

(** ** Runs of the code against the documented computation *)

Section Runs.
Context {num : Type} `{!Arith num}.
#[local] Abbreviation tensor := (tensor num).
#[local] Abbreviation store := (list tensor).
Implicit Types (s : store) (a b t : tensor) (l x y : loc).

Lemma lookup_last s a : (s ++ [a]) !! length s = Some a.
Proof. by rewrite lookup_app_r, Nat.sub_diag. Qed.

Lemma insert_last s a t : <[length s:=t]> (s ++ [a]) = s ++ [t].
Proof. by rewrite insert_app_r_alt, Nat.sub_diag. Qed.

Lemma imul_float_last s a w :
  imul_float (length s) w (s ++ [a]) = upd_last s a (tensor_mul a (Scal w)).
Proof.
  unfold imul_float, bind, deref, lift, assign. rewrite lookup_last.
  destruct (tensor_mul a (Scal w)); simpl; [by rewrite insert_last|done].
Qed.

Lemma imul_last s a y b :
  s !! y = Some b →
  imul (length s) y (s ++ [a]) = upd_last s a (tensor_mul a b).
Proof.
  intros Hy. unfold imul, bind, deref, lift, assign. rewrite lookup_last.
  rewrite (lookup_app_l_Some _ _ _ _ Hy).
  destruct (tensor_mul a b); simpl; [by rewrite insert_last|done].
Qed.

Lemma bind_run {A B} (m : M A) (k : A → M B) s :
  bind m k s = match m s with
               | (s', Ok a) => k a s'
               | (s', Raise e) => (s', Raise e)
               end.
Proof. reflexivity. Qed.

Lemma tensors_lookup s (d : gmap string loc) key :
  tensors s d !! key = d !! key ≫= (λ l, s !! l).
Proof. unfold tensors. by rewrite lookup_omap. Qed.

Lemma valid_lookup s0 s (d : gmap string loc) key l :
  valid s0 d → s0 `prefix_of` s → d !! key = Some l →
  ∃ t, s0 !! l = Some t ∧ s !! l = Some t ∧ tensors s0 d !! key = Some t.
Proof.
  intros Hv Hp Hl. specialize (Hv key l Hl). simpl in Hv.
  destruct (lookup_lt_is_Some_2 _ _ Hv) as [t Ht]. exists t.
  split; [done|]. split; [by eapply prefix_lookup_Some|].
  rewrite tensors_lookup, Hl. done.
Qed.

Lemma tensors_lookup_None s (d : gmap string loc) key :
  d !! key = None → tensors s d !! key = None.
Proof. intros Hl. by rewrite tensors_lookup, Hl. Qed.

Lemma times_self_weight_last (self : Loss num) key s a :
  times_self_weight self key (length s) (s ++ [a])
  = upd_last s a (scaled (weight_for (weight self) key) a).
Proof.
  unfold times_self_weight, weight_for, scaled.
  destruct (weight self) as [|w|d]; [done|apply imul_float_last|].
  destruct (d !! key); [apply imul_float_last|done].
Qed.

Lemma times_weight_dict_last s0 s wd key a :
  s0 `prefix_of` s → valid_option s0 wd →
  times_weight_dict wd key (length s) (s ++ [a])
  = upd_last s a (dict_weighted (tensors s0 <$> wd) key a).
Proof.
  intros Hp Hv. destruct wd as [d|]; [|done]. simpl in *.
  unfold getitem. rewrite bind_run.
  destruct (d !! key) as [l|] eqn:Hl.
  - destruct (valid_lookup _ _ _ _ _ Hv Hp Hl) as (t & _ & Hs & ->).
    by apply imul_last.
  - by rewrite tensors_lookup_None.
Qed.

Lemma times_area_last s0 s out a :
  s0 `prefix_of` s → valid s0 out →
  times_area out (length s) (s ++ [a])
  = upd_last s a (area_weighted (tensors s0 out !! "area") a).
Proof.
  intros Hp Hv. unfold times_area.
  destruct (out !! "area") as [l|] eqn:Hl.
  - destruct (valid_lookup _ _ _ _ _ Hv Hp Hl) as (t & _ & Hs & ->).
    by apply imul_last.
  - by rewrite tensors_lookup_None.
Qed.

Lemma reduce_last (self : Loss num) s a :
  ∃ s', reduce self (length s) (s ++ [a])
        = (s' ++ [reduced (reduction self) a], Ok (length s'))
        ∧ s `prefix_of` s'.
Proof.
  unfold reduce, reduced, t_sum, t_mean.
  repeat case_decide.
  - exists (s ++ [a]). rewrite bind_run. unfold deref, alloc.
    rewrite lookup_last. split; [done|]. by apply prefix_app_r.
  - exists (s ++ [a]). rewrite bind_run. unfold deref, alloc.
    rewrite lookup_last. split; [done|]. by apply prefix_app_r.
  - exists s. done.
Qed.

Lemma losses_ok_prefix s0 s s' losses acc :
  losses_ok s0 s losses acc → s `prefix_of` s' → losses_ok s0 s' losses acc.
Proof.
  destruct losses as [x|l]; simpl; [done|].
  intros [Hl Hs] Hp. split; [done|]. by eapply prefix_lookup_Some.
Qed.

Lemma prefix_insert_ge s0 s l t :
  s0 `prefix_of` s → length s0 ≤ l → s0 `prefix_of` <[l:=t]> s.
Proof.
  intros [k ->] Hl. rewrite insert_app_r_alt by done. by apply prefix_app_r.
Qed.

Lemma iadd_last s0 s losses acc r :
  s0 `prefix_of` s → losses_ok s0 s losses acc →
  ∃ s' o, iadd losses (length s) (s ++ [r]) = (s', o)
          ∧ s0 `prefix_of` s' ∧ step_ok s0 s' o (tensor_add acc r).
Proof.
  intros Hp Hok. destruct losses as [x|l]; simpl in *.
  - subst acc. rewrite bind_run. unfold deref. rewrite lookup_last.
    rewrite bind_run. unfold lift.
    destruct (tensor_add (Scal x) r) as [t|e]; simpl.
    + eexists _, _. split; [reflexivity|]. split.
      * do 2 apply prefix_app_r. done.
      * eexists. split; [reflexivity|]. simpl. split.
        -- rewrite length_app. apply prefix_length in Hp. lia.
        -- apply lookup_last.
    + eexists _, _. split; [reflexivity|]. split; [by apply prefix_app_r|done].
  - destruct Hok as [Hl Hs].
    assert (Hlt : l < length s) by (by eapply lookup_lt_Some).
    rewrite bind_run. unfold deref. rewrite (lookup_app_l_Some _ _ _ _ Hs).
    rewrite bind_run. rewrite lookup_last. rewrite bind_run. unfold lift.
    destruct (tensor_add acc r) as [t|e]; simpl.
    + eexists _, _. split; [reflexivity|]. split.
      * apply prefix_insert_ge; [by apply prefix_app_r|done].
      * eexists. split; [reflexivity|]. simpl. split; [done|].
        apply list_lookup_insert_eq. rewrite length_app. lia.
    + eexists _, _. split; [reflexivity|]. split; [by apply prefix_app_r|done].
Qed.

Ltac raised :=
  simpl; eexists _, _; split; [reflexivity|];
  split; [by repeat apply prefix_app_r|done].

Lemma weigh_reduce_add_run s0 s pre self out wd losses acc key e :
  s0 `prefix_of` s → valid s0 out → valid_option s0 wd →
  losses_ok s0 s losses acc →
  ∃ s' o, weigh_reduce_add pre self out wd losses key (length s) (s ++ [e]) = (s', o)
    ∧ s0 `prefix_of` s'
    ∧ step_ok s0 s' o
        (rbind (contribution pre self (tensors s0 out !! "area")
                  (tensors s0 <$> wd) key e) (tensor_add acc)).
Proof.
  intros Hp Hout Hwd Hok. unfold weigh_reduce_add, contribution, weighted_before_area, reduced_and_weighted.
  rewrite bind_run, (times_weight_dict_last s0) by done.
  destruct (dict_weighted _ key e) as [e1|err]; simpl; [|raised].
  rewrite bind_run.
  assert (Hpre : (if pre then times_self_weight self key (length s) else ret tt)
                   (s ++ [e1])
                 = upd_last s e1 (if pre then scaled (weight_for (weight self) key) e1
                                  else Ok e1)).
  { destruct pre; [apply times_self_weight_last|done]. }
  rewrite Hpre. clear Hpre.
  destruct (if pre then _ else _) as [e2|err]; simpl; [|raised].
  rewrite bind_run, (times_area_last s0) by done.
  destruct (area_weighted _ e2) as [e3|err]; simpl; [|raised].
  rewrite bind_run.
  destruct (reduce_last self s e3) as (s1 & -> & Hp1).
  assert (Hp01 : s0 `prefix_of` s1) by (by etrans).
  rewrite bind_run, times_self_weight_last.
  destruct (scaled _ (reduced _ e3)) as [r|err]; simpl; [|raised].
  apply (iadd_last s0); [done|]. by eapply losses_ok_prefix.
Qed.

Lemma assoc_tensors_ordered s (d : list (string * loc)) key :
  valid_ordered s d →
  assoc (tensors_ordered s d) key = assoc d key ≫= (λ l, s !! l).
Proof.
  unfold valid_ordered, tensors_ordered.
  induction 1 as [|[k l] d Hl _ IH]; [done|]. simpl in *.
  destruct (lookup_lt_is_Some_2 _ _ Hl) as [t Ht]. rewrite Ht. simpl.
  case_decide; [done|apply IH].
Qed.

Lemma keys_tensors_ordered s (d : list (string * loc)) :
  valid_ordered s d → keys (tensors_ordered s d) = keys d.
Proof.
  unfold valid_ordered, tensors_ordered, keys.
  induction 1 as [|[k l] d Hl _ IH]; [done|]. simpl in *.
  destruct (lookup_lt_is_Some_2 _ _ Hl) as [t Ht]. rewrite Ht. simpl.
  f_equal. apply IH.
Qed.

Lemma valid_ordered_assoc s0 s (d : list (string * loc)) key l :
  valid_ordered s0 d → s0 `prefix_of` s → assoc d key = Some l →
  ∃ t, s !! l = Some t ∧ assoc (tensors_ordered s0 d) key = Some t.
Proof.
  intros Hv Hp Hl. rewrite assoc_tensors_ordered, Hl by done. simpl.
  assert (l < length s0) as Hlt.
  { clear Hp. induction Hv as [|[k l'] d Hk _ IH]; [done|]. simpl in Hl.
    case_decide; [by simplify_eq|by apply IH]. }
  destruct (lookup_lt_is_Some_2 _ _ Hlt) as [t Ht]. exists t.
  split; [by eapply prefix_lookup_Some|done].
Qed.

Lemma F_l1_loss_run s x y a b :
  s !! x = Some a → s !! y = Some b →
  F_l1_loss x y s = match l1_loss_none a b with
                    | Ok t => (s ++ [t], Ok (length s))
                    | Raise e => (s, Raise e)
                    end.
Proof.
  intros Hx Hy. unfold F_l1_loss. rewrite bind_run. unfold deref at 1.
  rewrite Hx, bind_run. unfold deref at 1. rewrite Hy, bind_run.
  unfold lift. by destruct (l1_loss_none a b).
Qed.

Lemma L1Loss_body_run s0 s self out lab wd losses acc key :
  s0 `prefix_of` s → valid s0 out → valid_ordered s0 lab →
  valid_option s0 wd → losses_ok s0 s losses acc →
  ∃ s' o, L1Loss_body self out lab wd losses key s = (s', o)
    ∧ s0 `prefix_of` s'
    ∧ step_ok s0 s' o
        (rbind (L1_loss self (tensors s0 out) (tensors_ordered s0 lab)
                  (tensors s0 <$> wd) key) (tensor_add acc)).
Proof.
  intros Hp Hout Hlab Hwd Hok. unfold L1Loss_body, L1_loss, l1_elementwise.
  rewrite bind_run. unfold getitem at 1.
  destruct (out !! key) as [x|] eqn:Hx;
    [|rewrite tensors_lookup_None by done; raised].
  destruct (valid_lookup _ _ _ _ _ Hout Hp Hx) as (a & _ & Ha & ->). simpl.
  rewrite bind_run. unfold getitem_ordered at 1.
  destruct (assoc lab key) as [y|] eqn:Hy.
  2:{ rewrite assoc_tensors_ordered, Hy by done. raised. }
  destruct (valid_ordered_assoc _ _ _ _ _ Hlab Hp Hy) as (b & Hb & ->). simpl.
  rewrite bind_run, (F_l1_loss_run _ _ _ _ _ Ha Hb).
  destruct (l1_loss_none a b) as [e|err]; [|raised]. simpl.
  by apply (weigh_reduce_add_run s0 s true).
Qed.

Lemma odd_test n : (0 <? n mod 2) = negb (Nat.even n).
Proof.
  rewrite <- Nat.negb_odd, negb_involutive.
  destruct (Nat.odd n) eqn:Ho.
  - apply Nat.ltb_lt. apply Nat.odd_spec in Ho as [k ->].
    replace (2 * k + 1) with (1 + k * 2) by lia.
    rewrite Nat.Div0.mod_add. simpl. lia.
  - apply Nat.ltb_ge. rewrite <- Nat.negb_even in Ho.
    apply negb_false_iff, Nat.even_spec in Ho as [k ->].
    replace (2 * k) with (0 + k * 2) by lia.
    rewrite Nat.Div0.mod_add. simpl. lia.
Qed.

Lemma getitem_run (d : gmap string loc) key s :
  getitem d key s
  = (s, match d !! key with Some l => Ok l | None => Raise (KeyError key) end).
Proof. unfold getitem. by destruct (d !! key). Qed.

Lemma len_run s x a : s !! x = Some a → len x s = (s, tensor_len a).
Proof. intros Hx. unfold len. rewrite bind_run. unfold deref. by rewrite Hx. Qed.

Lemma getslice_to_run s x rows n :
  s !! x = Some (Arr rows) →
  getslice_to x n s = (s ++ [Arr (take n rows)], Ok (length s)).
Proof.
  intros Hx. unfold getslice_to. rewrite bind_run. unfold deref. by rewrite Hx.
Qed.

Lemma getslice_from_run s x rows n :
  s !! x = Some (Arr rows) →
  getslice_from x n s = (s ++ [Arr (drop n rows)], Ok (length s)).
Proof.
  intros Hx. unfold getslice_from. rewrite bind_run. unfold deref. by rewrite Hx.
Qed.

Lemma PeriodicL1Loss_body_run s0 s self out wd losses acc key :
  s0 `prefix_of` s → valid s0 out →
  valid_option s0 wd → losses_ok s0 s losses acc →
  ∃ s' o, PeriodicL1Loss_body self out wd losses key s = (s', o)
    ∧ s0 `prefix_of` s'
    ∧ step_ok s0 s' o
        (rbind (periodic_loss self (tensors s0 out) (tensors s0 <$> wd) key)
               (tensor_add acc)).
Proof.
  intros Hp Hout Hwd Hok.
  unfold PeriodicL1Loss_body, periodic_loss, periodic_elementwise.
  rewrite bind_run, getitem_run.
  destruct (out !! key) as [x|] eqn:Hx;
    [|rewrite tensors_lookup_None by done; raised].
  destruct (valid_lookup _ _ _ _ _ Hout Hp Hx) as (a & _ & Ha & ->).
  rewrite bind_run, (len_run _ _ _ Ha).
  destruct a as [v|rows]; [raised|]. cbn [tensor_len].
  rewrite odd_test. destruct (Nat.even (length rows)); [|raised].
  cbn [negb]. set (n := length rows / 2).
  rewrite bind_run, getitem_run, Hx.
  rewrite bind_run, (getslice_to_run _ _ _ _ Ha).
  rewrite bind_run, getitem_run, Hx.
  rewrite bind_run, (getslice_from_run _ _ rows) by (by apply lookup_app_l_Some).
  set (lo := Arr (take _ rows)). set (hi := Arr (drop _ rows)).
  set (s1 := (s ++ [lo]) ++ [hi]).
  assert (Hlo : s1 !! length s = Some lo).
  { unfold s1. apply lookup_app_l_Some, lookup_last. }
  assert (Hhi : s1 !! length (s ++ [lo]) = Some hi) by apply lookup_last.
  rewrite bind_run, (F_l1_loss_run _ _ _ _ _ Hlo Hhi).
  assert (Hp1 : s `prefix_of` s1) by (by do 2 apply prefix_app_r).
  destruct (l1_loss_none lo hi) as [e|err]; cbn [rbind].
  2:{ eexists _, _. split; [reflexivity|]. split; [by etrans|done]. }
  apply (weigh_reduce_add_run s0 s1 false); [by etrans|done..|].
  by eapply losses_ok_prefix.
Qed.

Lemma for_each_run s0 (body : pyval num → string → M (pyval num))
    (c : string → result tensor) :
  (∀ s losses acc key,
     s0 `prefix_of` s → losses_ok s0 s losses acc →
     ∃ s' o, body losses key s = (s', o) ∧ s0 `prefix_of` s'
       ∧ step_ok s0 s' o (rbind (c key) (tensor_add acc))) →
  ∀ ks s losses acc,
    s0 `prefix_of` s → losses_ok s0 s losses acc →
    ∃ s' o, for_each ks losses body s = (s', o) ∧ s0 `prefix_of` s'
      ∧ step_ok s0 s' o (total_from acc c ks).
Proof.
  intros Hbody ks. induction ks as [|k ks IH]; intros s losses acc Hp Hok.
  - eexists _, _. split; [reflexivity|]. split; [done|]. simpl. eauto.
  - cbn [for_each total_from]. rewrite bind_run.
    destruct (Hbody s losses acc k Hp Hok) as (s1 & o & -> & Hp1 & Hstep).
    destruct (c k) as [v|err]; cbn [rbind step_ok] in *.
    2:{ subst o. eexists _, _. split; [reflexivity|]. by split. }
    destruct (tensor_add acc v) as [acc'|err]; cbn [rbind step_ok] in *.
    2:{ subst o. eexists _, _. split; [reflexivity|]. by split. }
    destruct Hstep as (losses' & -> & Hok'). by apply IH.
Qed.

Lemma step_ok_agrees s0 s' o d : step_ok s0 s' o d → agrees s' o d.
Proof.
  destruct d as [t|e]; [|done]. intros (v & -> & Hv). exists v. split; [done|].
  destruct v as [x|l]; simpl in *; [by subst|by destruct Hv].
Qed.

Lemma L1Loss_forward_run s self out lab wd :
  valid s out → valid_ordered s lab → valid_option s wd →
  ∃ s' r, L1Loss_forward self out lab wd s = (s', r)
    ∧ s `prefix_of` s'
    ∧ agrees s' r
        (total (L1_loss self (tensors s out) (tensors_ordered s lab)
                  (tensors s <$> wd)) (keys lab)).
Proof.
  intros Hout Hlab Hwd. unfold L1Loss_forward, total.
  destruct (for_each_run s (L1Loss_body self out lab wd)
              (L1_loss self (tensors s out) (tensors_ordered s lab)
                 (tensors s <$> wd))
              ltac:(intros; by apply L1Loss_body_run)
              (keys lab) s (PyFloat zero) (Scal zero))
    as (s' & r & Hrun & Hp & Hstep); [done..|].
  exists s', r. eauto using step_ok_agrees.
Qed.

Lemma PeriodicL1Loss_forward_run s self out lab wd :
  valid s out → valid_option s wd →
  ∃ s' r, PeriodicL1Loss_forward self out lab wd s = (s', r)
    ∧ s `prefix_of` s'
    ∧ agrees s' r
        (total (periodic_loss self (tensors s out) (tensors s <$> wd))
               (keys lab)).
Proof.
  intros Hout Hwd. unfold PeriodicL1Loss_forward, total.
  destruct (for_each_run s (PeriodicL1Loss_body self out wd)
              (periodic_loss self (tensors s out) (tensors s <$> wd))
              ltac:(intros; by apply PeriodicL1Loss_body_run)
              (keys lab) s (PyFloat zero) (Scal zero))
    as (s' & r & Hrun & Hp & Hstep); [done..|].
  exists s', r. eauto using step_ok_agrees.
Qed.
End Runs.

(** ** The properties of the two losses *)

Section Claims.
Context {num : Type} `{!Arith num}.
#[local] Abbreviation tensor := (tensor num).
#[local] Abbreviation store := (list tensor).
Implicit Types (s : store) (self : Loss num) (out : gmap string loc)
  (lab : list (string * loc)) (wd : option (gmap string loc)).

Lemma total_from_ext (c c' : string → result tensor) ks :
  (∀ key, key ∈ ks → c key = c' key) →
  ∀ acc, total_from acc c ks = total_from acc c' ks.
Proof.
  induction ks as [|k ks IH]; intros Hc acc; [done|]. cbn [total_from].
  rewrite (Hc k) by left. destruct (c' k) as [v|e]; [|done]. cbn [rbind].
  destruct (tensor_add acc v) as [acc'|e]; [|done]. cbn [rbind].
  apply IH. intros key Hin. apply Hc. by right.
Qed.

Lemma total_ext (c c' : string → result tensor) ks :
  (∀ key, key ∈ ks → c key = c' key) → total c ks = total c' ks.
Proof. intros Hc. by apply total_from_ext. Qed.

Lemma contribution_keyed_loss pre self area W key (e : tensor) :
  contribution pre self area W key e = keyed_loss pre self area W key e.
Proof.
  unfold contribution, weighted_before_area, reduced_and_weighted, keyed_loss,
    weighted_twice, weighted_after, unweighted, scaled.
  destruct (weight_for (weight self) key) as [w|], pre;
    destruct (dict_weighted W key e) as [e1|err]; cbn [rbind]; done.
Qed.

Lemma tensors_prefix s s' (d : gmap string loc) :
  s `prefix_of` s' → valid s d → tensors s' d = tensors s d.
Proof.
  intros Hp Hd. apply map_eq. intros key. rewrite !tensors_lookup.
  destruct (d !! key) as [l|] eqn:Hl; [|done]. simpl.
  by destruct (valid_lookup _ _ _ _ _ Hd Hp Hl) as (t & -> & -> & _).
Qed.

Lemma tensors_ordered_prefix s s' (d : list (string * loc)) :
  s `prefix_of` s' → valid_ordered s d →
  tensors_ordered s' d = tensors_ordered s d.
Proof.
  intros Hp. unfold valid_ordered, tensors_ordered.
  induction 1 as [|[k l] d Hl _ IH]; [done|]. simpl in *.
  destruct (lookup_lt_is_Some_2 _ _ Hl) as [t Ht].
  rewrite (prefix_lookup_Some _ _ _ _ Ht Hp), Ht. simpl. f_equal. apply IH.
Qed.

(** C1, as the code has it. The constructor's weight multiplies the loss of
    a key before the reduction and again after it in [L1Loss.forward], so
    that it enters that loss twice; in [PeriodicL1Loss.forward] it multiplies
    the reduced loss only, and enters once. *)
Theorem constructor_weight_twice_in_L1_once_in_periodic self out lab wd s :
  valid s out → valid_ordered s lab → valid_option s wd →
  L1_weight_twice self out lab wd s ∧ periodic_weight false self out lab wd s.
Proof.
  intros Hout Hlab Hwd. split.
  - destruct (L1Loss_forward_run s self out lab wd) as (s' & r & Hrun & _ & Ha);
      [done..|].
    unfold L1_weight_twice. rewrite Hrun. cbn [fst snd].
    erewrite total_ext; [exact Ha|]. intros key _. unfold L1_loss.
    destruct (l1_elementwise _ _ key); cbn [rbind]; [|done].
    symmetry. apply contribution_keyed_loss.
  - destruct (PeriodicL1Loss_forward_run s self out lab wd)
      as (s' & r & Hrun & _ & Ha); [done..|].
    unfold periodic_weight. rewrite Hrun. cbn [fst snd].
    erewrite total_ext; [exact Ha|]. intros key _. unfold periodic_loss.
    destruct (periodic_elementwise _ key); cbn [rbind]; [|done].
    symmetry. apply contribution_keyed_loss.
Qed.

(** C2. Each constructor raises a ValueError exactly when [reduction] is
    neither "mean" nor "sum"; otherwise it returns the object whose
    attributes are the two arguments, as given. *)
Theorem constructors_check_reduction (reduction : string) (w : weight_t num) :
  ((∃ m, L1Loss_init reduction w = Raise (ValueError m))
     ↔ ¬ (reduction = "mean" ∨ reduction = "sum"))
  ∧ ((∃ m, PeriodicL1Loss_init reduction w = Raise (ValueError m))
     ↔ ¬ (reduction = "mean" ∨ reduction = "sum"))
  ∧ (reduction = "mean" ∨ reduction = "sum" →
     L1Loss_init reduction w = Ok (mkLoss reduction w)
     ∧ PeriodicL1Loss_init reduction w = Ok (mkLoss reduction w)).
Proof.
  assert (Hin : reduction ∈ ["mean"; "sum"] ↔ reduction = "mean" ∨ reduction = "sum").
  { rewrite !elem_of_cons, elem_of_nil. tauto. }
  unfold L1Loss_init, PeriodicL1Loss_init, Loss_init.
  case_bool_decide as Hred; rewrite Hin in Hred.
  - split; [|split]; [split; eauto..|tauto].
  - split; [|split]; [split; [by intros [? ?]|tauto]..|done].
Qed.

(** C7. With a [weight_dict], the elementwise loss of each key is multiplied
    by [weight_dict[key]] (a KeyError if the key is missing), and the loss of
    the key is then what a call without [weight_dict] computes from that
    product: the area, the reduction and the constructor's weight come after
    it, and [weight_dict] takes no part in them. *)
Theorem weight_dict_multiplies_elementwise_loss self out lab
    (weights : gmap string loc) s :
  valid s out → valid_ordered s lab → valid s weights →
  let times_entry key e :=
    match tensors s weights !! key with
    | Some w => tensor_mul e w
    | None => Raise (KeyError key)
    end in
  let area := tensors s out !! "area" in
  let run := L1Loss_forward self out lab (Some weights) s in
  let run' := PeriodicL1Loss_forward self out lab (Some weights) s in
  agrees run.1 run.2
    (total (λ key,
       rbind (rbind (l1_elementwise (tensors s out) (tensors_ordered s lab) key)
                    (times_entry key))
             (contribution true self area None key)) (keys lab))
  ∧ agrees run'.1 run'.2
    (total (λ key,
       rbind (rbind (periodic_elementwise (tensors s out) key) (times_entry key))
             (contribution false self area None key)) (keys lab)).
Proof.
  intros Hout Hlab Hwd times_entry area run run'. split.
  - destruct (L1Loss_forward_run s self out lab (Some weights))
      as (s' & r & Hrun & _ & Ha); [done..|].
    subst run. rewrite Hrun. cbn [fst snd].
    erewrite total_ext; [exact Ha|]. intros key _. unfold L1_loss.
    destruct (l1_elementwise _ _ key) as [e|]; cbn [rbind]; [|done].
    unfold contribution, weighted_before_area, dict_weighted, times_entry.
    cbn [fmap option_fmap option_map].
    destruct (tensors s weights !! key) as [w|]; [destruct (tensor_mul e w)|]; done.
  - destruct (PeriodicL1Loss_forward_run s self out lab (Some weights))
      as (s' & r & Hrun & _ & Ha); [done..|].
    subst run'. rewrite Hrun. cbn [fst snd].
    erewrite total_ext; [exact Ha|]. intros key _. unfold periodic_loss.
    destruct (periodic_elementwise _ key) as [e|]; cbn [rbind]; [|done].
    unfold contribution, weighted_before_area, dict_weighted, times_entry.
    cbn [fmap option_fmap option_map].
    destruct (tensors s weights !! key) as [w|]; [destruct (tensor_mul e w)|]; done.
Qed.

(** C8. When [output_dict] has the key "area", the elementwise loss of each
    key, after its weights, is multiplied by the tensor [output_dict["area"]]
    and the product is what is reduced; without that key the weighted
    elementwise loss is reduced as it is. *)
Theorem area_multiplies_before_reduction self out lab wd s :
  valid s out → valid_ordered s lab → valid_option s wd →
  let times_area e :=
    match tensors s out !! "area" with
    | Some a => tensor_mul e a
    | None => Ok e
    end in
  let W := tensors s <$> wd in
  let run := L1Loss_forward self out lab wd s in
  let run' := PeriodicL1Loss_forward self out lab wd s in
  agrees run.1 run.2
    (total (λ key,
       rbind (l1_elementwise (tensors s out) (tensors_ordered s lab) key) (λ e,
       rbind (weighted_before_area true self W key e) (λ e2,
       rbind (times_area e2) (reduced_and_weighted self key)))) (keys lab))
  ∧ agrees run'.1 run'.2
    (total (λ key,
       rbind (periodic_elementwise (tensors s out) key) (λ e,
       rbind (weighted_before_area false self W key e) (λ e2,
       rbind (times_area e2) (reduced_and_weighted self key)))) (keys lab)).
Proof.
  intros Hout Hlab Hwd times_area W run run'. split.
  - destruct (L1Loss_forward_run s self out lab wd)
      as (s' & r & Hrun & _ & Ha); [done..|].
    subst run. rewrite Hrun. exact Ha.
  - destruct (PeriodicL1Loss_forward_run s self out lab wd)
      as (s' & r & Hrun & _ & Ha); [done..|].
    subst run'. rewrite Hrun. exact Ha.
Qed.

(** C9. A call of [forward], whether it returns or raises, leaves every
    tensor object that existed before the call as it was: the tensors of
    [output_dict], [label_dict] and [weight_dict] among them.  (The
    dictionaries and the attributes of the loss object are values of the
    call: no statement of [forward] assigns to them.) *)
Theorem forward_leaves_objects_unchanged self out lab wd s :
  valid s out → valid_ordered s lab → valid_option s wd →
  let run := L1Loss_forward self out lab wd s in
  let run' := PeriodicL1Loss_forward self out lab wd s in
  (∀ l t, s !! l = Some t → run.1 !! l = Some t)
  ∧ (∀ l t, s !! l = Some t → run'.1 !! l = Some t)
  ∧ tensors run.1 out = tensors s out
  ∧ tensors run'.1 out = tensors s out
  ∧ tensors_ordered run.1 lab = tensors_ordered s lab
  ∧ tensors_ordered run'.1 lab = tensors_ordered s lab
  ∧ (tensors run.1 <$> wd) = (tensors s <$> wd)
  ∧ (tensors run'.1 <$> wd) = (tensors s <$> wd).
Proof.
  intros Hout Hlab Hwd run run'.
  destruct (L1Loss_forward_run s self out lab wd)
    as (s1 & r1 & Hrun1 & Hp1 & _); [done..|].
  destruct (PeriodicL1Loss_forward_run s self out lab wd)
    as (s2 & r2 & Hrun2 & Hp2 & _); [done..|].
  subst run run'. rewrite Hrun1, Hrun2. cbn [fst].
  assert (Hopt : ∀ s', s `prefix_of` s' →
            (tensors s' <$> wd) = (tensors s <$> wd)).
  { intros s' Hp. destruct wd as [d|]; [|done]. simpl. f_equal.
    by apply tensors_prefix. }
  repeat split;
    eauto using prefix_lookup_Some, tensors_prefix, tensors_ordered_prefix.
Qed.

(** C10. The periodic loss reads the keys of [label_dict] and nothing else
    of it: two calls on label dictionaries with the same keys in the same
    order give the same result, whatever tensors the labels are, and
    whatever the stores hold besides the tensors of [output_dict] and
    [weight_dict]. *)
Theorem periodic_ignores_label_values self out wd lab lab' s s' :
  valid s out → valid s' out → valid_option s wd → valid_option s' wd →
  keys lab = keys lab' →
  tensors s out = tensors s' out →
  (tensors s <$> wd) = (tensors s' <$> wd) →
  let run := PeriodicL1Loss_forward self out lab wd s in
  let run' := PeriodicL1Loss_forward self out lab' wd s' in
  (∃ d, agrees run.1 run.2 d ∧ agrees run'.1 run'.2 d)
  ∧ PeriodicL1Loss_forward self out lab' wd s = run.
Proof.
  intros Hout Hout' Hwd Hwd' Hkeys Ho Hw run run'. split.
  - destruct (PeriodicL1Loss_forward_run s self out lab wd)
      as (s1 & r1 & Hrun1 & _ & Ha1); [done..|].
    destruct (PeriodicL1Loss_forward_run s' self out lab' wd)
      as (s2 & r2 & Hrun2 & _ & Ha2); [done..|].
    subst run run'. rewrite Hrun1, Hrun2. cbn [fst snd].
    rewrite <- Ho, <- Hw, <- Hkeys in Ha2. eauto.
  - subst run. unfold PeriodicL1Loss_forward. by rewrite Hkeys.
Qed.

Lemma reduced_scalar reduction (e : tensor) :
  reduction = "mean" ∨ reduction = "sum" → ∃ x, reduced reduction e = Scal x.
Proof.
  unfold reduced, tensor_sum, tensor_mean.
  intros [-> | ->]; repeat case_decide; eauto; done.
Qed.

Lemma contribution_scalar pre self area W key (e : tensor) :
  reduction self = "mean" ∨ reduction self = "sum" →
  scalar_or_raises (contribution pre self area W key e).
Proof.
  intros Hred. unfold contribution, reduced_and_weighted.
  destruct (weighted_before_area pre self W key e) as [e2|]; [|done].
  cbn [rbind]. destruct (area_weighted area e2) as [e3|]; [|done]. cbn [rbind].
  destruct (reduced_scalar (reduction self) e3 Hred) as [x ->].
  unfold scaled. destruct (weight_for (weight self) key); simpl; eauto.
Qed.

Lemma total_from_scalar (c : string → result tensor) ks :
  (∀ key, scalar_or_raises (c key)) →
  ∀ x, scalar_or_raises (total_from (Scal x) c ks).
Proof.
  intros Hc. induction ks as [|k ks IH]; intros x; [simpl; eauto|].
  cbn [total_from]. specialize (Hc k).
  destruct (c k) as [v|]; [|done]. destruct Hc as [y ->]. apply IH.
Qed.

Lemma for_each_ext {S} (body body' : S → string → M (num:=num) S) ks :
  (∀ acc key s, key ∈ ks → body acc key s = body' acc key s) →
  ∀ acc s, for_each ks acc body s = for_each ks acc body' s.
Proof.
  induction ks as [|k ks IH]; intros Hb acc s; [done|]. cbn [for_each].
  rewrite !bind_run, (Hb acc k s) by left.
  destruct (body' acc k s) as [s' [acc'|e]]; [|done].
  apply IH. intros acc0 key s0 Hin. apply Hb. by right.
Qed.

Lemma L1Loss_body_ext self out out' lab wd losses key s :
  out' !! key = out !! key → out' !! "area" = out !! "area" →
  L1Loss_body self out' lab wd losses key s
  = L1Loss_body self out lab wd losses key s.
Proof.
  intros Hk Ha. unfold L1Loss_body, getitem, times_area. by rewrite Hk, Ha.
Qed.

Lemma PeriodicL1Loss_body_ext self out out' wd losses key s :
  out' !! key = out !! key → out' !! "area" = out !! "area" →
  PeriodicL1Loss_body self out' wd losses key s
  = PeriodicL1Loss_body self out wd losses key s.
Proof.
  intros Hk Ha. unfold PeriodicL1Loss_body, getitem, times_area.
  by rewrite Hk, Ha.
Qed.

(** C6. [forward] returns the sum, over the keys of [label_dict] in their
    order and starting from the float 0.0, of the weighted and reduced loss
    of each key (or raises what the first failing key raises).  With the
    reduction "mean" or "sum", the only ones that the constructors accept,
    that sum is a single scalar.  With an empty [label_dict] the result is
    the float 0.0 itself.  A key of [output_dict] that is not a key of
    [label_dict], "area" apart, is never read: two output dictionaries that
    agree on the label keys and on "area" give the same run. *)
Theorem forward_is_sum_over_label_keys self out out' lab wd s :
  reduction self = "mean" ∨ reduction self = "sum" →
  valid s out → valid_ordered s lab → valid_option s wd →
  (∀ key, key ∈ "area" :: keys lab → out' !! key = out !! key) →
  let run := L1Loss_forward self out lab wd s in
  let run' := PeriodicL1Loss_forward self out lab wd s in
  let d := total (L1_loss self (tensors s out) (tensors_ordered s lab)
                    (tensors s <$> wd)) (keys lab) in
  let d' := total (periodic_loss self (tensors s out) (tensors s <$> wd))
                  (keys lab) in
  (agrees run.1 run.2 d ∧ scalar_or_raises d)
  ∧ (agrees run'.1 run'.2 d' ∧ scalar_or_raises d')
  ∧ L1Loss_forward self out [] wd s = (s, Ok (PyFloat zero))
  ∧ PeriodicL1Loss_forward self out [] wd s = (s, Ok (PyFloat zero))
  ∧ L1Loss_forward self out' lab wd s = run
  ∧ PeriodicL1Loss_forward self out' lab wd s = run'.
Proof.
  intros Hred Hout Hlab Hwd Hagree run run' d d'.
  destruct (L1Loss_forward_run s self out lab wd) as (s1 & r1 & Hrun1 & _ & Ha1);
    [done..|].
  destruct (PeriodicL1Loss_forward_run s self out lab wd)
    as (s2 & r2 & Hrun2 & _ & Ha2); [done..|].
  subst run run'. rewrite Hrun1, Hrun2. cbn [fst snd].
  split; [|split]; [split; [done|]..|].
  - apply total_from_scalar. intros key. unfold L1_loss.
    destruct (l1_elementwise _ _ key); [|done]. by apply contribution_scalar.
  - apply total_from_scalar. intros key. unfold periodic_loss.
    destruct (periodic_elementwise _ key); [|done]. by apply contribution_scalar.
  - split; [done|]. split; [done|]. rewrite <- Hrun1, <- Hrun2. split.
    + apply for_each_ext. intros acc key s0 Hin.
      apply L1Loss_body_ext; apply Hagree; [by right|left].
    + apply for_each_ext. intros acc key s0 Hin.
      apply PeriodicL1Loss_body_ext; apply Hagree; [by right|left].
Qed.

Lemma mapR_raises {A B} (f : A → result B) (P : exn → Prop) l e :
  Forall (λ x, ∀ e, f x = Raise e → P e) l → mapR f l = Raise e → P e.
Proof.
  induction 1 as [|x l Hx _ IH]; [done|]. cbn [mapR].
  destruct (f x) as [y|e'] eqn:Hf; cbn [rbind]; [|intros [= <-]; by apply Hx].
  fold (mapR f). destruct (mapR f l); [done|]. intros [= <-]. by apply IH.
Qed.

Lemma zipR_raises {A B C} (f : A → B → result C) (P : exn → Prop) l k e :
  Forall (λ x, ∀ y e, f x y = Raise e → P e) l → zipR f l k = Raise e → P e.
Proof.
  intros Hl. revert k. induction Hl as [|x l Hx _ IH]; intros [|y k]; try done.
  cbn [zipR].
  destruct (f x y) as [z|e'] eqn:Hf; cbn [rbind]; [|intros [= <-]; by eapply Hx].
  fold (zipR f). destruct (zipR f l k) eqn:Hz; [done|]. intros [= <-].
  by eapply IH.
Qed.

Lemma rmap_raises {A B} (g : A → B) (r : result A) e :
  rmap g r = Raise e → r = Raise e.
Proof. destruct r; simpl; congruence. Qed.

Lemma broadcast_raises f (a b : tensor) e :
  broadcast f a b = Raise e → e = ValueError Broadcast.
Proof.
  pose (P := λ e : exn, e = ValueError Broadcast).
  change (broadcast f a b = Raise e → P e).
  revert b e. induction a as [x|as_ IHa] using tensor_rows_ind;
    intros b; induction b as [y|bs IHb] using tensor_rows_ind; intros e.
  - done.
  - intros H%rmap_raises. revert H. by apply (mapR_raises _ P).
  - intros H%rmap_raises. revert H. apply (mapR_raises _ P).
    eapply Forall_impl; [exact IHa|]. naive_solver.
  - rewrite broadcast_Arr_Arr.
    assert (HA : Forall (λ ai, ∀ y e, broadcast f ai y = Raise e → P e) as_).
    { eapply Forall_impl; [exact IHa|]. naive_solver. }
    repeat case_match; try (intros [= <-]; done);
      intros Hr%rmap_raises; revert Hr;
      first [ by apply (mapR_raises _ P)
            | by apply (zipR_raises _ P)
            | apply (mapR_raises _ P); eapply Forall_impl; [exact IHa|];
              naive_solver
            | idtac ].
    apply (mapR_raises _ P). apply Forall_forall. intros bi Hbi e'.
    inversion_clear HA as [|? ? Ht _]. apply Ht.
Qed.

Lemma for_each_app {S} (body : S → string → M (num:=num) S) ks1 ks2 acc s :
  for_each (ks1 ++ ks2) acc body s
  = bind (for_each ks1 acc body) (λ acc', for_each ks2 acc' body) s.
Proof.
  revert acc s. induction ks1 as [|k ks1 IH]; intros acc s; [done|].
  cbn [app for_each]. rewrite !bind_run.
  destruct (body acc k s) as [s' [acc'|e]]; [|done]. rewrite IH. by rewrite bind_run.
Qed.

Lemma keys_app {V} (d1 d2 : list (string * V)) : keys (d1 ++ d2) = keys d1 ++ keys d2.
Proof. apply map_app. Qed.

Lemma odd_not_even n : Nat.odd n = true → Nat.even n = false.
Proof. rewrite <- Nat.negb_even. by intros ->%negb_true_iff. Qed.

Lemma PeriodicL1Loss_body_odd self out wd losses key n s0 s :
  valid s0 out → s0 `prefix_of` s → odd_length (tensors s0 out) key n →
  PeriodicL1Loss_body self out wd losses key s
  = (s, Raise (ValueError (OddLength n key))).
Proof.
  intros Hout Hp (rows & Hrows & <- & Hodd).
  rewrite tensors_lookup in Hrows.
  destruct (out !! key) as [x|] eqn:Hx; [|done]. simpl in Hrows.
  unfold PeriodicL1Loss_body.
  rewrite bind_run, getitem_run, Hx.
  rewrite bind_run, (len_run _ _ (Arr rows))
    by (by eapply prefix_lookup_Some).
  cbn [tensor_len]. by rewrite odd_test, odd_not_even.
Qed.

Lemma total_from_raises (c : string → result tensor) ks e :
  ∀ acc, total_from acc c ks = Raise e →
  (∃ key, key ∈ ks ∧ c key = Raise e) ∨ e = ValueError Broadcast.
Proof.
  induction ks as [|k ks IH]; intros acc; [done|]. cbn [total_from].
  destruct (c k) as [v|e'] eqn:Hc; cbn [rbind].
  - destruct (tensor_add acc v) as [acc'|e'] eqn:Hadd; cbn [rbind].
    + intros [(key & Hin & Hkey)| ->]%IH; [left|by right].
      exists key. split; [by right|done].
    + intros [= <-]. right. by eapply broadcast_raises.
  - intros [= <-]. left. exists k. split; [left|done].
Qed.

Lemma scaled_raises (w : option num) (t : tensor) e :
  scaled w t = Raise e → e = ValueError Broadcast.
Proof. destruct w; [apply broadcast_raises|done]. Qed.

Lemma dict_weighted_raises (W : option (gmap string tensor)) key (t : tensor) e :
  dict_weighted W key t = Raise e →
  e = ValueError Broadcast ∨ e = KeyError key.
Proof.
  unfold dict_weighted. destruct W as [d|]; [|done].
  destruct (d !! key); [left; by eapply broadcast_raises|intros [= <-]; by right].
Qed.

Lemma area_weighted_raises (area : option tensor) (t : tensor) e :
  area_weighted area t = Raise e → e = ValueError Broadcast.
Proof. destruct area; [apply broadcast_raises|done]. Qed.

Lemma contribution_raises pre self area W key (t : tensor) e :
  contribution pre self area W key t = Raise e →
  e = ValueError Broadcast ∨ e = KeyError key.
Proof.
  unfold contribution, weighted_before_area, reduced_and_weighted.
  destruct (dict_weighted W key t) as [e1|err] eqn:Hd; cbn [rbind].
  2:{ intros [= <-]. by eapply dict_weighted_raises. }
  destruct (if pre then _ else _) as [e2|err] eqn:Hpre; cbn [rbind].
  2:{ intros [= <-]. destruct pre; [|done]. left. by eapply scaled_raises. }
  destruct (area_weighted area e2) as [e3|err] eqn:Harea; cbn [rbind].
  - intros ?%scaled_raises. by left.
  - intros [= <-]. left. by eapply area_weighted_raises.
Qed.

Lemma periodic_loss_raises_odd self (O : gmap string tensor) W key n k :
  periodic_loss self O W key = Raise (ValueError (OddLength n k)) →
  k = key ∧ odd_length O key n.
Proof.
  unfold periodic_loss.
  destruct (periodic_elementwise O key) as [t|e] eqn:He; cbn [rbind].
  - by intros [?|?]%contribution_raises.
  - intros [= ->]. unfold periodic_elementwise in He.
    destruct (O !! key) as [[x|rows]|] eqn:Hx; [done| |done].
    destruct (Nat.even (length rows)) eqn:Hev.
    + by apply broadcast_raises in He.
    + injection He as <- <-. split; [done|]. exists rows.
      split; [done|]. split; [done|]. by rewrite <- Nat.negb_even, Hev.
Qed.

(** C3, as the code has it. If [forward] returns on the keys that come
    before a key whose output has an odd leading dimension [n] -- none of
    them raises, for an odd length or for anything else -- then [forward]
    raises the ValueError of that key and of [n].  If no key of [label_dict]
    has an output of odd leading dimension, [forward] does not raise that
    error. *)
Theorem periodic_raises_for_odd_length self out wd s :
  valid s out → valid_option s wd →
  (∀ before key y after s1 v n,
     PeriodicL1Loss_forward self out before wd s = (s1, Ok v) →
     odd_length (tensors s out) key n →
     (PeriodicL1Loss_forward self out (before ++ (key, y) :: after) wd s).2
     = Raise (ValueError (OddLength n key)))
  ∧ (∀ lab,
       (∀ key n, key ∈ keys lab → ¬ odd_length (tensors s out) key n) →
       ∀ n key, (PeriodicL1Loss_forward self out lab wd s).2
                ≠ Raise (ValueError (OddLength n key))).
Proof.
  intros Hout Hwd. split.
  - intros before key y after s1 v n Hbefore Hodd.
    destruct (PeriodicL1Loss_forward_run s self out before wd)
      as (s' & r & Hrun & Hp & _); [done..|].
    rewrite Hbefore in Hrun. injection Hrun as <- <-.
    unfold PeriodicL1Loss_forward in *.
    rewrite keys_app, for_each_app, bind_run, Hbefore.
    cbn [keys map fst for_each]. rewrite bind_run.
    by rewrite (PeriodicL1Loss_body_odd _ _ _ _ _ n s).
  - intros lab Heven n key Hraise.
    destruct (PeriodicL1Loss_forward_run s self out lab wd)
      as (s' & r & Hrun & _ & Ha); [done..|].
    rewrite Hrun in Hraise. cbn [snd] in Hraise. subst r.
    unfold agrees in Ha.
    destruct (total _ (keys lab)) as [t|e] eqn:Ht; [by destruct Ha as (? & ? & _)|].
    injection Ha as <-.
    apply total_from_raises in Ht as [(k & Hin & Hk)|?]; [|done].
    apply periodic_loss_raises_odd in Hk as [-> Hodd]. by eapply Heven.
Qed.

Lemma periodic_elementwise_even (O : gmap string tensor) key rows :
  O !! key = Some (Arr rows) → rect (Arr rows) = true →
  Nat.even (length rows) = true →
  periodic_elementwise O key = Ok (halves_abs_diff (Arr rows)).
Proof.
  intros HO Hrect Hev. unfold periodic_elementwise. rewrite HO, Hev.
  unfold l1_loss_none. rewrite broadcast_same_shape; [done|..].
  - eapply rect_sublist; [done|apply subseteq_take].
  - eapply rect_sublist; [done|apply subseteq_drop].
  - apply shape_halves; [done|by apply even_half].
Qed.

(** C5. In [PeriodicL1Loss.forward] the loss of a key is computed from the
    elementwise loss of the key alone ([weight_dict], the area, the reduction
    and the constructor's weight come after it); and for a key whose output
    has an even leading dimension 2n, that elementwise loss has n entries,
    entry i being the elementwise absolute difference of entry i and entry
    n + i of the output. *)
Theorem periodic_elementwise_loss_of_halves self out lab wd s key rows :
  valid s out → valid_option s wd →
  tensors s out !! key = Some (Arr rows) →
  rect (Arr rows) = true →
  Nat.even (length rows) = true →
  let n := length rows / 2 in
  let run := PeriodicL1Loss_forward self out lab wd s in
  agrees run.1 run.2
    (total (λ k,
       rbind (periodic_elementwise (tensors s out) k)
             (contribution false self (tensors s out !! "area")
                (tensors s <$> wd) k)) (keys lab))
  ∧ length rows = n + n
  ∧ ∃ es,
      periodic_elementwise (tensors s out) key = Ok (Arr es)
      ∧ length es = n
      ∧ ∀ i a b, rows !! i = Some a → rows !! (n + i) = Some b →
          es !! i = Some (zip_tensor abs_diff a b)
          ∧ elements (zip_tensor abs_diff a b)
            = zip_with abs_diff (elements a) (elements b).
Proof.
  intros Hout Hwd Hkey Hrect Hev n run.
  assert (Hlen : length rows = n + n) by (apply even_half in Hev; lia).
  split; [|split; [done|]].
  { destruct (PeriodicL1Loss_forward_run s self out lab wd)
      as (s' & r & Hrun & _ & Ha); [done..|].
    subst run. rewrite Hrun. exact Ha. }
  eexists. split; [by apply periodic_elementwise_even|].
  fold n. split.
  { rewrite length_zip_with, length_take, length_drop. lia. }
  intros i a b Ha Hb.
  assert (Hi : i < n).
  { apply lookup_lt_Some in Hb. lia. }
  split.
  - rewrite lookup_zip_with, lookup_take_lt, lookup_drop, Ha, Hb by done. done.
  - apply rect_Arr in Hrect as [Hr Hs]. apply elements_zip_tensor.
    + by eapply Forall_lookup_1 in Hr.
    + by eapply Forall_lookup_1 in Hr.
    + apply Hs; by eapply list_elem_of_lookup_2.
Qed.

Lemma L1_loss_plain self (O : gmap string tensor) (L : list (string * tensor))
    key x y :
  weight self = WNone → O !! "area" = None →
  O !! key = Some x → assoc L key = Some y →
  rect x = true → rect y = true → shape x = shape y →
  L1_loss self O L None key
  = Ok (reduced (reduction self) (zip_tensor abs_diff x y)).
Proof.
  intros Hw Harea Hx Hy Hrx Hry Hsh.
  unfold L1_loss, l1_elementwise, l1_loss_none, contribution,
    weighted_before_area, reduced_and_weighted.
  rewrite Hx, Hy, broadcast_same_shape, Hw, Harea by done. done.
Qed.
End Claims.

(** *** Exact arithmetic *)

Lemma Qsum_cons (x : Q) (l : list Q) : Qsum (x :: l) = (x + Qsum l)%Q.
Proof. reflexivity. Qed.

Lemma fold_add_Qsum (l : list Q) (a : Q) :
  (fold_left add l a == a + Qsum l)%Q.
Proof.
  revert a. induction l as [|x l IH]; intros a; cbn [fold_left].
  - change (Qsum []) with 0%Q. ring.
  - rewrite IH, Qsum_cons. change (add a x) with (Qred (a + x)).
    rewrite Qred_correct. ring.
Qed.

Lemma sum_list_Qsum (l : list Q) : (sum_list l == Qsum l)%Q.
Proof.
  unfold sum_list. rewrite fold_add_Qsum. change (@zero Q _) with 0%Q. ring.
Qed.

Lemma Qsum_abs_diff (l k : list Q) :
  (Qsum (zip_with abs_diff l k)
   == Qsum (zip_with (λ a b, Qabs (a - b)) l k))%Q.
Proof.
  revert k. induction l as [|a l IH]; intros [|b k];
    cbn [zip_with]; try reflexivity.
  rewrite !Qsum_cons, IH. change (abs_diff a b) with (Qred (Qabs (Qred (a - b)))).
  by rewrite !Qred_correct.
Qed.

Lemma reduced_documented (red : string) (x y : tensor Q) :
  red = "mean" ∨ red = "sum" →
  rect x = true → rect y = true → shape x = shape y →
  ∃ v, reduced red (zip_tensor abs_diff x y) = Scal v
       ∧ (v == documented_L1 red x y)%Q.
Proof.
  intros Hred Hrx Hry Hsh.
  destruct (elements_zip_tensor abs_diff x y Hrx Hry Hsh) as [Hel Hlen].
  unfold reduced, documented_L1, tensor_sum, tensor_mean, numel, abs_differences.
  rewrite Hel, length_zip_with, <- Hlen, Nat.min_id.
  destruct Hred as [-> | ->]; repeat case_decide; try done; eexists; (split; [done|]).
  - change (div ?a ?b) with (Qred (a / b)).
    change (of_nat ?n) with (inject_Z (Z.of_nat n)).
    rewrite Qred_correct, sum_list_Qsum, Qsum_abs_diff.
    unfold Qdiv. ring.
  - by rewrite sum_list_Qsum, Qsum_abs_diff.
Qed.

Lemma total_from_Qsum (c : string → result (tensor Q)) (g : string → Q) ks :
  (∀ key, key ∈ ks → ∃ v, c key = Ok (Scal v) ∧ (v == g key)%Q) →
  ∀ a, ∃ q, total_from (Scal a) c ks = Ok (Scal q)
            ∧ (q == a + Qsum (map g ks))%Q.
Proof.
  induction ks as [|k ks IH]; intros Hc a.
  - exists a. split; [done|]. change (Qsum (map g [])) with 0%Q. ring.
  - destruct (Hc k) as (v & Hv & Hg); [left|]. cbn [total_from].
    rewrite Hv. cbn [rbind].
    change (tensor_add (Scal a) (Scal v)) with (Ok (Scal (Qred (a + v)))).
    cbn [rbind].
    destruct (IH (λ key Hin, Hc key (list_elem_of_further _ _ _ Hin))
                 (Qred (a + v))) as (q & -> & Hq).
    exists q. split; [done|]. rewrite Hq. cbn [map].
    rewrite Qsum_cons, Qred_correct, Hg. ring.
Qed.

(** *** The formula of the documentation *)

Section Formula_facts.
Context {num : Type} `{!Arith num}.
#[local] Abbreviation tensor := (tensor num).

Lemma reduced_abs_diff (red : string) (x y : tensor) :
  red = "mean" ∨ red = "sum" →
  rect x = true → rect y = true → shape x = shape y →
  reduced red (zip_tensor abs_diff x y) = Scal (mean_or_sum_abs_diff red x y).
Proof.
  intros Hred Hrx Hry Hsh.
  destruct (elements_zip_tensor abs_diff x y Hrx Hry Hsh) as [Hel Hlen].
  unfold reduced, mean_or_sum_abs_diff, tensor_sum, tensor_mean, numel.
  rewrite Hel, length_zip_with, <- Hlen, Nat.min_id.
  destruct Hred as [-> | ->]; repeat case_decide; done.
Qed.

Lemma total_from_fold (c : string → result tensor) (g : string → num) ks :
  (∀ key, key ∈ ks → c key = Ok (Scal (g key))) →
  ∀ a, total_from (Scal a) c ks = Ok (Scal (fold_left add (map g ks) a)).
Proof.
  induction ks as [|k ks IH]; intros Hc a; [done|].
  cbn [total_from map fold_left]. rewrite Hc by left. cbn [rbind].
  change (tensor_add (Scal a) (Scal (g k))) with (Ok (Scal (add a (g k)))).
  cbn [rbind]. apply IH. intros key Hin. apply Hc. by right.
Qed.

(** C4. With the weight None, no [weight_dict] and no "area" key, and for
    every key an output x and a label y of one shape, [L1Loss.forward]
    returns the sum over the keys, from the left and starting from 0.0, of
    the per-key formula: sum_i |x_i - y_i| for the reduction "sum", and that
    sum divided by N, the number of elements of x, for "mean".  The
    arithmetic is that of the tensors' elements, whatever its rounding. *)
Theorem L1_unweighted_same_shape_is_documented_formula (self : Loss num)
    out lab (s : list tensor) :
  weight self = WNone →
  reduction self = "mean" ∨ reduction self = "sum" →
  valid s out → valid_ordered s lab →
  out !! "area" = None →
  (∀ key, key ∈ keys lab →
     ∃ x y, tensors s out !! key = Some x
            ∧ assoc (tensors_ordered s lab) key = Some y
            ∧ rect x = true ∧ rect y = true ∧ shape x = shape y) →
  returns (L1Loss_forward self out lab None s)
    (Scal (fold_left add
             (map (mean_or_sum_abs_diff_of_key (reduction self)
                     (tensors s out) (tensors_ordered s lab)) (keys lab))
             zero)).
Proof.
  intros Hweight Hred Hout Hlab Harea Hkeys.
  destruct (L1Loss_forward_run s self out lab None)
    as (s' & r & Hrun & _ & Ha); [done..|].
  unfold total in Ha.
  rewrite (total_from_fold _
             (mean_or_sum_abs_diff_of_key (reduction self) (tensors s out)
                (tensors_ordered s lab))) in Ha.
  - rewrite Hrun. exact Ha.
  - intros key Hin.
    destruct (Hkeys key Hin) as (x & y & Hx & Hy & Hrx & Hry & Hsh).
    rewrite (L1_loss_plain _ _ _ _ x y); try done.
    + unfold mean_or_sum_abs_diff_of_key. rewrite Hx, Hy.
      by rewrite reduced_abs_diff.
    + by apply tensors_lookup_None.
Qed.

End Formula_facts.

(** ** The theorems at sample calls *)

Ltac sample :=
  first [ exact I
        | unfold valid; compute_done
        | unfold valid_ordered; compute_done
        | unfold valid_option, valid; compute_done
        | vm_compute; reflexivity ].

(** The fields [u] and [v], reduction "mean", no weight:
    (|1-2| + |3-1|)/2 + (|1-0| + |2-0| + |4-0|)/3 = 23/6. *)
Example L1_mean_of_two_fields :
  returned (L1Loss_forward Sample.mean_unweighted Sample.output_uv
              Sample.label_uv None Sample.store)
  = Ok (Some (Scal (23 # 6)%Q)).
Proof. vm_compute. reflexivity. Qed.

(** The same with the weight 2.0: four times as much. *)
Example L1_mean_of_two_fields_weighted :
  returned (L1Loss_forward Sample.mean_twice Sample.output_uv
              Sample.label_uv None Sample.store)
  = Ok (Some (Scal (46 # 3)%Q)).
Proof. vm_compute. reflexivity. Qed.

(** The field [u], reduction "sum", the weight 3.0 for [u], the weight [5]
    of [weight_dict] and the area [5]:
    ((|1-2| + |3-1|) * 5 * 3 * 5) * 3 = 675. *)
Example L1_sum_with_every_weight :
  returned (L1Loss_forward (mkLoss "sum" (WDict {[ "u" := 3%Q ]}))
              Sample.output_u_area Sample.label_u (Some Sample.weights_uv)
              Sample.store)
  = Ok (Some (Scal 675%Q)).
Proof. vm_compute. reflexivity. Qed.

(** The periodic loss of [u] with the same [weight_dict] and area and the
    weight 2.0: |1-3| * 5 * 5 * 2 = 100. *)
Example periodic_mean_with_every_weight :
  returned (PeriodicL1Loss_forward Sample.mean_twice Sample.output_u_area
              Sample.label_u (Some Sample.weights_uv) Sample.store)
  = Ok (Some (Scal 100%Q)).
Proof. vm_compute. reflexivity. Qed.

(** The store after a call: the five tensors of the caller, then the
    tensors that the call made. *)
Example L1_store_after_call :
  L1Loss_forward Sample.mean_twice Sample.output_u Sample.label_u None
    Sample.store
  = (Sample.store ++ [Arr [Scal 2%Q; Scal 4%Q]; Scal 6%Q; Scal 6%Q],
     Ok (PyTensor 7)).
Proof. vm_compute. reflexivity. Qed.

(** C1 at a call with the float weight 2.0 on the fields [u] and [v]. *)
Lemma constructor_weight_twice_in_L1_once_in_periodic_witness :
  valid Sample.store Sample.output_uv
  ∧ valid_ordered Sample.store Sample.label_uv
  ∧ valid_option Sample.store None
  ∧ L1_weight_twice Sample.mean_twice Sample.output_uv Sample.label_uv None
      Sample.store
  ∧ periodic_weight false Sample.mean_twice Sample.output_uv Sample.label_uv
      None Sample.store.
Proof.
  split; [sample|]. split; [sample|]. split; [sample|].
  apply constructor_weight_twice_in_L1_once_in_periodic; sample.
Defined.

(** C1 as stated fails for the periodic loss: with the weight 2.0, the
    reduction "mean" and the output [1, 3] of the field [u], [forward]
    returns |1 - 3| * 2 = 4, and not |1 - 3| * 2 * 2 = 8. *)
Lemma periodic_weight_not_twice :
  returned (PeriodicL1Loss_forward Sample.mean_twice Sample.output_u
              Sample.label_u None Sample.store)
  = Ok (Some (Scal 4%Q))
  ∧ ¬ periodic_weight true Sample.mean_twice Sample.output_u Sample.label_u
        None Sample.store.
Proof.
  split; [vm_compute; reflexivity|].
  unfold periodic_weight. intros H. vm_compute in H.
  destruct H as (v & Hv & Ht). injection Hv as <-. discriminate Ht.
Qed.

(** C2 at the reduction "mean". *)
Lemma constructors_check_reduction_witness :
  ("mean" = "mean" ∨ "mean" = "sum")
  ∧ L1Loss_init "mean" (WFloat 2%Q) = Ok Sample.mean_twice
  ∧ PeriodicL1Loss_init "mean" (WFloat 2%Q) = Ok Sample.mean_twice.
Proof.
  split; [by left|].
  apply (proj2 (proj2 (constructors_check_reduction "mean" (WFloat 2%Q)))).
  by left.
Defined.

(** C3 at the fields [u] (2 samples) and [v] (3 samples). *)
Lemma periodic_raises_for_odd_length_witness :
  valid Sample.store Sample.output_uv
  ∧ valid_option Sample.store None
  ∧ (∃ s1 v, PeriodicL1Loss_forward Sample.mean_unweighted Sample.output_uv
               [("u", 2)] None Sample.store = (s1, Ok v))
  ∧ odd_length (tensors Sample.store Sample.output_uv) "v" 3
  ∧ (PeriodicL1Loss_forward Sample.mean_unweighted Sample.output_uv
       Sample.label_uv None Sample.store).2
    = Raise (ValueError (OddLength 3 "v")).
Proof.
  assert (Hodd : odd_length (tensors Sample.store Sample.output_uv) "v" 3).
  { exists [Scal 1%Q; Scal 2%Q; Scal 4%Q]. split; [sample|done]. }
  split; [sample|]. split; [sample|]. split; [eexists _, _; sample|].
  split; [exact Hodd|].
  eapply (proj1 (periodic_raises_for_odd_length Sample.mean_unweighted
                   Sample.output_uv None Sample.store ltac:(sample) ltac:(sample))
            [("u", 2)] "v" 3 []); [sample|exact Hodd].
Defined.

(** C3 as stated fails: the field [v] has 3 samples, the field [u], which
    comes first, has 2, and [weight_dict] has an entry for [v] only; the call
    raises KeyError('u') at [weight_dict["u"]] and never reaches [v]. *)
Lemma odd_key_not_raised :
  (PeriodicL1Loss_forward Sample.mean_unweighted Sample.output_uv
     Sample.label_uv (Some Sample.weights_v) Sample.store).2
  = Raise (KeyError "u")
  ∧ ¬ raises_for_first_odd_key Sample.mean_unweighted Sample.output_uv
        Sample.label_uv (Some Sample.weights_v) Sample.store.
Proof.
  assert (Hr : (PeriodicL1Loss_forward Sample.mean_unweighted Sample.output_uv
                  Sample.label_uv (Some Sample.weights_v) Sample.store).2
               = Raise (KeyError "u")) by (vm_compute; reflexivity).
  split; [exact Hr|]. intros H.
  specialize (H [("u", 2)] "v" 3 [] 3 eq_refl). rewrite Hr in H.
  assert (Raise (A:=pyval Q) (KeyError "u")
          = Raise (ValueError (OddLength 3 "v"))) as [=].
  apply H.
  - intros k m Hk (rows & Hrows & Hlen & Hodd).
    apply list_elem_of_singleton in Hk as ->.
    vm_compute in Hrows. injection Hrows as <-. by subst m.
  - exists [Scal 1%Q; Scal 2%Q; Scal 4%Q]. split; [sample|done].
Qed.

(** C4 at the field [u] with the reduction "mean", in exact arithmetic:
    [forward] returns 0 + (|1-2| + |3-1|)/2 = 3/2. *)
Lemma L1_unweighted_same_shape_is_documented_formula_witness :
  weight Sample.mean_unweighted = WNone
  ∧ (reduction Sample.mean_unweighted = "mean"
     ∨ reduction Sample.mean_unweighted = "sum")
  ∧ valid Sample.store Sample.output_u
  ∧ valid_ordered Sample.store Sample.label_u
  ∧ Sample.output_u !! "area" = None
  ∧ (∀ key, key ∈ keys Sample.label_u →
       ∃ x y, tensors Sample.store Sample.output_u !! key = Some x
              ∧ assoc (tensors_ordered Sample.store Sample.label_u) key = Some y
              ∧ rect x = true ∧ rect y = true ∧ shape x = shape y)
  ∧ returns (L1Loss_forward Sample.mean_unweighted Sample.output_u
               Sample.label_u None Sample.store)
      (Scal (fold_left add
               (map (mean_or_sum_abs_diff_of_key
                       (reduction Sample.mean_unweighted)
                       (tensors Sample.store Sample.output_u)
                       (tensors_ordered Sample.store Sample.label_u))
                  (keys Sample.label_u))
               zero))
  ∧ fold_left add
      (map (mean_or_sum_abs_diff_of_key
              (reduction Sample.mean_unweighted)
              (tensors Sample.store Sample.output_u)
              (tensors_ordered Sample.store Sample.label_u))
         (keys Sample.label_u))
      zero
    = (3 # 2)%Q.
Proof.
  assert (Hkeys : ∀ key, key ∈ keys Sample.label_u →
       ∃ x y, tensors Sample.store Sample.output_u !! key = Some x
              ∧ assoc (tensors_ordered Sample.store Sample.label_u) key = Some y
              ∧ rect x = true ∧ rect y = true ∧ shape x = shape y).
  { intros key Hin. cbn [keys map fst Sample.label_u] in Hin.
    apply list_elem_of_singleton in Hin as ->.
    exists (Arr [Scal 1%Q; Scal 3%Q]), (Arr [Scal 2%Q; Scal 1%Q]).
    repeat split; sample. }
  split; [done|]. split; [by left|]. split; [sample|]. split; [sample|].
  split; [sample|]. split; [exact Hkeys|]. split; [|sample].
  apply (L1_unweighted_same_shape_is_documented_formula
           Sample.mean_unweighted Sample.output_u Sample.label_u Sample.store);
    [done|by left|sample|sample|sample|exact Hkeys].
Defined.

(** C4 as stated fails when the output and the label of a key have
    different shapes.  For the output [[1], [3]] and the label [2, 1] of
    the field [u], the elementwise loss is [[1, 0], [1, 2]]: [forward]
    returns 4/4 = 1 for the reduction "mean" and 4 for "sum", where the
    formula gives (|1-2| + |3-1|)/2 = 3/2 and |1-2| + |3-1| = 3. *)
Lemma L1_broadcast_is_not_documented_formula :
  returned (L1Loss_forward Sample.mean_unweighted Broadcast_sample.output_u
              Broadcast_sample.label_u None Broadcast_sample.store)
  = Ok (Some (Scal 1%Q))
  ∧ returned (L1Loss_forward Broadcast_sample.sum_unweighted
                Broadcast_sample.output_u Broadcast_sample.label_u None
                Broadcast_sample.store)
    = Ok (Some (Scal 4%Q))
  ∧ ¬ L1_is_documented_formula Sample.mean_unweighted
        Broadcast_sample.output_u Broadcast_sample.label_u
        Broadcast_sample.store
  ∧ ¬ L1_is_documented_formula Broadcast_sample.sum_unweighted
        Broadcast_sample.output_u Broadcast_sample.label_u
        Broadcast_sample.store.
Proof.
  split; [vm_compute; reflexivity|]. split; [vm_compute; reflexivity|].
  split.
  - intros (q & (v & Hv & Ht) & Hq). vm_compute in Hv, Ht.
    injection Hv as <-. injection Ht as <-. vm_compute in Hq. discriminate Hq.
  - intros (q & (v & Hv & Ht) & Hq). vm_compute in Hv, Ht.
    injection Hv as <-. injection Ht as <-. vm_compute in Hq. discriminate Hq.
Qed.

(** C5 at the field [u], whose output [1, 3] has the halves [1] and [3]. *)
Lemma periodic_elementwise_loss_of_halves_witness :
  valid Sample.store Sample.output_u
  ∧ valid_option Sample.store None
  ∧ tensors Sample.store Sample.output_u !! "u" = Some (Arr [Scal 1%Q; Scal 3%Q])
  ∧ rect (Arr [Scal 1%Q; Scal 3%Q]) = true
  ∧ Nat.even (length [Scal 1%Q; Scal 3%Q]) = true
  ∧ ∃ es,
      periodic_elementwise (tensors Sample.store Sample.output_u) "u" = Ok (Arr es)
      ∧ length es = 1.
Proof.
  split; [sample|]. split; [sample|]. split; [sample|]. split; [sample|].
  split; [sample|].
  destruct (periodic_elementwise_loss_of_halves Sample.mean_unweighted
              Sample.output_u Sample.label_u None Sample.store "u"
              [Scal 1%Q; Scal 3%Q])
    as (_ & _ & es & Hes & Hlen & _); [sample..|].
  exists es. by split.
Defined.

(** C6 at the fields [u] and [v], and at an output dictionary with one
    more key. *)
Lemma forward_is_sum_over_label_keys_witness :
  (reduction Sample.mean_unweighted = "mean"
   ∨ reduction Sample.mean_unweighted = "sum")
  ∧ valid Sample.store Sample.output_uv
  ∧ valid_ordered Sample.store Sample.label_uv
  ∧ valid_option Sample.store None
  ∧ L1Loss_forward Sample.mean_unweighted Sample.output_uv_more Sample.label_uv
      None Sample.store
    = L1Loss_forward Sample.mean_unweighted Sample.output_uv Sample.label_uv
        None Sample.store.
Proof.
  split; [by left|]. split; [sample|]. split; [sample|]. split; [sample|].
  destruct (forward_is_sum_over_label_keys Sample.mean_unweighted
              Sample.output_uv Sample.output_uv_more Sample.label_uv None
              Sample.store) as (_ & _ & _ & _ & Hsame & _);
    [by left|sample..| |exact Hsame].
  intros key Hin. cbn [keys map fst Sample.label_uv] in Hin.
  apply elem_of_cons in Hin as [->|Hin]; [sample|].
  apply elem_of_cons in Hin as [->|Hin]; [sample|].
  apply list_elem_of_singleton in Hin as ->. sample.
Defined.

(** C7 at a [weight_dict] with the weight [5] for both fields. *)
Lemma weight_dict_multiplies_elementwise_loss_witness :
  valid Sample.store Sample.output_uv
  ∧ valid_ordered Sample.store Sample.label_uv
  ∧ valid Sample.store Sample.weights_uv
  ∧ ∃ d, agrees
      (L1Loss_forward Sample.mean_twice Sample.output_uv Sample.label_uv
         (Some Sample.weights_uv) Sample.store).1
      (L1Loss_forward Sample.mean_twice Sample.output_uv Sample.label_uv
         (Some Sample.weights_uv) Sample.store).2 d.
Proof.
  split; [sample|]. split; [sample|]. split; [sample|].
  destruct (weight_dict_multiplies_elementwise_loss Sample.mean_twice
              Sample.output_uv Sample.label_uv Sample.weights_uv Sample.store)
    as (Hagrees & _); [sample..|]. eexists. exact Hagrees.
Defined.

(** C8 at an output dictionary with the area [5]. *)
Lemma area_multiplies_before_reduction_witness :
  valid Sample.store Sample.output_u_area
  ∧ valid_ordered Sample.store Sample.label_u
  ∧ valid_option Sample.store None
  ∧ ∃ d, agrees
      (L1Loss_forward Sample.mean_twice Sample.output_u_area Sample.label_u
         None Sample.store).1
      (L1Loss_forward Sample.mean_twice Sample.output_u_area Sample.label_u
         None Sample.store).2 d.
Proof.
  split; [sample|]. split; [sample|]. split; [sample|].
  destruct (area_multiplies_before_reduction Sample.mean_twice
              Sample.output_u_area Sample.label_u None Sample.store)
    as (Hagrees & _); [sample..|]. eexists. exact Hagrees.
Defined.

(** C9 at a call with an area and a [weight_dict]. *)
Lemma forward_leaves_objects_unchanged_witness :
  valid Sample.store Sample.output_u_area
  ∧ valid_ordered Sample.store Sample.label_u
  ∧ valid_option Sample.store (Some Sample.weights_uv)
  ∧ ∀ l t, Sample.store !! l = Some t →
      (L1Loss_forward Sample.mean_twice Sample.output_u_area Sample.label_u
         (Some Sample.weights_uv) Sample.store).1 !! l = Some t.
Proof.
  split; [sample|]. split; [sample|]. split; [sample|].
  destruct (forward_leaves_objects_unchanged Sample.mean_twice
              Sample.output_u_area Sample.label_u (Some Sample.weights_uv)
              Sample.store) as (Hsame & _); [sample..|exact Hsame].
Defined.

(** C10 at two label dictionaries for the field [u], and two stores with
    different labels. *)
Lemma periodic_ignores_label_values_witness :
  valid Sample.store Sample.output_u
  ∧ valid Sample.store_other_labels Sample.output_u
  ∧ keys Sample.label_u = keys Sample.label_u_other
  ∧ tensors Sample.store Sample.output_u
    = tensors Sample.store_other_labels Sample.output_u
  ∧ PeriodicL1Loss_forward Sample.mean_twice Sample.output_u
      Sample.label_u_other None Sample.store
    = PeriodicL1Loss_forward Sample.mean_twice Sample.output_u
        Sample.label_u None Sample.store.
Proof.
  split; [sample|]. split; [sample|]. split; [sample|]. split; [sample|].
  destruct (periodic_ignores_label_values Sample.mean_twice Sample.output_u
              None Sample.label_u Sample.label_u_other Sample.store
              Sample.store_other_labels) as (_ & Hsame); [sample..|exact Hsame].
Defined.

(** * Further properties *)

Section Exceptions.
Context {num : Type} `{!Arith num}.
#[local] Abbreviation tensor := (tensor num).
#[local] Abbreviation store := (list tensor).
Implicit Types (s : store) (self : Loss num) (out : gmap string loc)
  (lab : list (string * loc)) (wd : option (gmap string loc)).

Lemma assoc_is_Some {V} (d : list (string * V)) key :
  key ∈ keys d → is_Some (assoc d key).
Proof.
  induction d as [|[k v] d IH]; [by intros ?%elem_of_nil|].
  cbn [keys map fst assoc]. intros Hin. case_decide; [by eexists|].
  apply IH. apply elem_of_cons in Hin as [->|Hin]; done.
Qed.

Lemma valid_ordered_lt s (d : list (string * loc)) key l :
  valid_ordered s d → assoc d key = Some l → l < length s.
Proof.
  induction 1 as [|[k l'] d Hk _ IH]; [done|]. simpl in *.
  case_decide; [by intros [= <-]|done].
Qed.

Lemma tensors_lookup_is_None s0 (d : gmap string loc) key :
  valid s0 d → tensors s0 d !! key = None → d !! key = None.
Proof.
  intros Hv. rewrite tensors_lookup. destruct (d !! key) as [l|] eqn:Hl; [|done].
  simpl. specialize (Hv key l Hl). simpl in Hv.
  by destruct (lookup_lt_is_Some_2 _ _ Hv) as [t ->].
Qed.

Lemma dict_weighted_raises_missing s0 wd key (t : tensor) e :
  valid_option s0 wd →
  dict_weighted (tensors s0 <$> wd) key t = Raise e →
  e = ValueError Broadcast ∨ (e = KeyError key ∧ ∃ d, wd = Some d ∧ d !! key = None).
Proof.
  intros Hv. destruct wd as [d|]; [|done]. cbn [fmap option_fmap option_map dict_weighted].
  destruct (tensors s0 d !! key) eqn:Hl.
  - left. by eapply broadcast_raises.
  - intros [= <-]. right. split; [done|]. exists d. split; [done|].
    by eapply tensors_lookup_is_None.
Qed.

Lemma contribution_raises_missing pre self s0 area wd key (t : tensor) e :
  valid_option s0 wd →
  contribution pre self area (tensors s0 <$> wd) key t = Raise e →
  e = ValueError Broadcast ∨ (e = KeyError key ∧ ∃ d, wd = Some d ∧ d !! key = None).
Proof.
  intros Hv. unfold contribution, weighted_before_area, reduced_and_weighted.
  destruct (dict_weighted _ key t) as [e1|err] eqn:Hd; cbn [rbind].
  2:{ intros [= <-]. by eapply dict_weighted_raises_missing. }
  destruct (if pre then _ else _) as [e2|err] eqn:Hpre; cbn [rbind].
  2:{ intros [= <-]. destruct pre; [|done]. left. by eapply scaled_raises. }
  destruct (area_weighted area e2) as [e3|err] eqn:Harea; cbn [rbind].
  - intros ?%scaled_raises. by left.
  - intros [= <-]. left. by eapply area_weighted_raises.
Qed.

(** X1. What [L1Loss.forward] can raise: a KeyError for a key of [label_dict]
    that [output_dict] or [weight_dict] does not have, or the error of two
    shapes that do not broadcast; nothing else. *)
Theorem L1Loss_forward_raises_only self out lab wd s e :
  valid s out → valid_ordered s lab → valid_option s wd →
  (L1Loss_forward self out lab wd s).2 = Raise e →
  e = ValueError Broadcast
  ∨ ∃ key, key ∈ keys lab ∧ e = KeyError key
           ∧ (out !! key = None ∨ ∃ d, wd = Some d ∧ d !! key = None).
Proof.
  intros Hout Hlab Hwd Hraise.
  destruct (L1Loss_forward_run s self out lab wd)
    as (s' & r & Hrun & _ & Ha); [done..|].
  rewrite Hrun in Hraise. cbn [snd] in Hraise. subst r. unfold agrees in Ha.
  destruct (total _ (keys lab)) as [t|e'] eqn:Ht; [by destruct Ha as (? & ? & _)|].
  injection Ha as <-.
  apply total_from_raises in Ht as [(key & Hin & Hkey)|?]; [|by left].
  unfold L1_loss, l1_elementwise in Hkey.
  destruct (tensors s out !! key) as [x|] eqn:Hx; cbn [rbind] in Hkey.
  2:{ injection Hkey as <-. right. exists key. split; [done|]. split; [done|].
      left. by eapply tensors_lookup_is_None. }
  destruct (assoc (tensors_ordered s lab) key) as [y|] eqn:Hy.
  2:{ rewrite assoc_tensors_ordered in Hy by done.
      destruct (assoc_is_Some lab key Hin) as [l Hl]. rewrite Hl in Hy. simpl in Hy.
      assert (l < length s) as Hlt by (by eapply valid_ordered_lt).
      by destruct (lookup_lt_is_Some_2 _ _ Hlt) as [t Ht']; rewrite Ht' in Hy. }
  destruct (l1_loss_none x y) as [t|err] eqn:Hl1; cbn [rbind] in Hkey.
  2:{ injection Hkey as <-. left. by eapply broadcast_raises. }
  destruct (contribution_raises_missing _ _ s _ _ _ _ _ Hwd Hkey)
    as [?|(-> & Hd)]; [by left|].
  right. exists key. split; [done|]. split; [done|]. by right.
Qed.

(** X2. What [PeriodicL1Loss.forward] can raise: the ValueError of a key of
    [label_dict] whose output has an odd leading dimension, a KeyError for a
    key of [label_dict] that [output_dict] or [weight_dict] does not have,
    the AssertionError of [len] for an output that is a 0-D tensor, or the
    error of two shapes that do not broadcast; nothing else. *)
Theorem PeriodicL1Loss_forward_raises_only self out lab wd s e :
  valid s out → valid_option s wd →
  (PeriodicL1Loss_forward self out lab wd s).2 = Raise e →
  e = ValueError Broadcast
  ∨ ∃ key, key ∈ keys lab ∧
      ((∃ n, e = ValueError (OddLength n key) ∧ odd_length (tensors s out) key n)
       ∨ (e = KeyError key
          ∧ (out !! key = None ∨ ∃ d, wd = Some d ∧ d !! key = None))
       ∨ (e = AssertionError ∧ ∃ x, tensors s out !! key = Some (Scal x))).
Proof.
  intros Hout Hwd Hraise.
  destruct (PeriodicL1Loss_forward_run s self out lab wd)
    as (s' & r & Hrun & _ & Ha); [done..|].
  rewrite Hrun in Hraise. cbn [snd] in Hraise. subst r. unfold agrees in Ha.
  destruct (total _ (keys lab)) as [t|e'] eqn:Ht; [by destruct Ha as (? & ? & _)|].
  injection Ha as <-.
  apply total_from_raises in Ht as [(key & Hin & Hkey)|?]; [|by left].
  unfold periodic_loss, periodic_elementwise in Hkey.
  destruct (tensors s out !! key) as [[x|rows]|] eqn:Hx; cbn [rbind] in Hkey.
  - injection Hkey as <-. right. exists key. split; [done|]. right. right. eauto.
  - destruct (Nat.even (length rows)) eqn:Hev.
    + destruct (l1_loss_none _ _) as [t|err] eqn:Hl1; cbn [rbind] in Hkey.
      2:{ injection Hkey as <-. left. by eapply broadcast_raises. }
      destruct (contribution_raises_missing _ _ s _ _ _ _ _ Hwd Hkey)
        as [?|(-> & Hd)]; [by left|].
      right. exists key. split; [done|]. right. left. split; [done|]. by right.
    + cbn [rbind] in Hkey. injection Hkey as <-. right. exists key.
      split; [done|]. left. exists (length rows). split; [done|].
      exists rows. split; [done|]. split; [done|].
      by rewrite <- Nat.negb_even, Hev.
  - injection Hkey as <-. right. exists key. split; [done|]. right. left.
    split; [done|]. left. by eapply tensors_lookup_is_None.
Qed.

(** X3. A key of [label_dict] that [output_dict] does not have: if [forward]
    returns on the keys before it, it raises the KeyError of that key. *)
Theorem forward_raises_KeyError_for_missing_output self out before key y after wd s :
  out !! key = None →
  (∀ s1 v, L1Loss_forward self out before wd s = (s1, Ok v) →
     L1Loss_forward self out (before ++ (key, y) :: after) wd s
     = (s1, Raise (KeyError key)))
  ∧ (∀ s1 v, PeriodicL1Loss_forward self out before wd s = (s1, Ok v) →
     PeriodicL1Loss_forward self out (before ++ (key, y) :: after) wd s
     = (s1, Raise (KeyError key))).
Proof.
  intros Hkey. split; intros s1 v Hbefore.
  - unfold L1Loss_forward in *.
    set (body := L1Loss_body self out (before ++ (key, y) :: after) wd).
    rewrite keys_app, for_each_app, bind_run.
    assert (Hb : for_each (keys before) (PyFloat zero) body s = (s1, Ok v)).
    { rewrite <- Hbefore. apply for_each_ext. intros acc k s0 Hin. subst body.
      unfold L1Loss_body. rewrite !bind_run. destruct (getitem out k s0) as [s2 [x|]];
        [|done].
      unfold getitem_ordered.
      replace (assoc (before ++ (key, y) :: after) k) with (assoc before k); [done|].
      clear -Hin. induction before as [|[k' l] d IH]; [by apply elem_of_nil in Hin|].
      cbn [app assoc]. case_decide; [done|]. apply IH.
      cbn [keys map fst] in Hin. apply elem_of_cons in Hin as [->|Hin]; done. }
    rewrite Hb. cbn [keys map fst for_each]. rewrite bind_run. subst body.
    unfold L1Loss_body. by rewrite bind_run, getitem_run, Hkey.
  - unfold PeriodicL1Loss_forward in *.
    rewrite keys_app, for_each_app, bind_run, Hbefore.
    cbn [keys map fst for_each]. rewrite bind_run.
    unfold PeriodicL1Loss_body. by rewrite bind_run, getitem_run, Hkey.
Qed.

Lemma times_self_weight_ext self self' key :
  weight_for (weight self) key = weight_for (weight self') key →
  times_self_weight self key = times_self_weight self' key.
Proof.
  unfold times_self_weight, weight_for.
  destruct (weight self) as [|w|d], (weight self') as [|w'|d']; intros Hw;
    try done.
  - by rewrite <- Hw.
  - by injection Hw as <-.
  - by rewrite <- Hw.
  - by rewrite Hw.
  - by rewrite Hw.
  - by rewrite Hw.
Qed.

Lemma reduce_ext self self' :
  reduction self = reduction self' → reduce self = reduce self'.
Proof. unfold reduce. by intros ->. Qed.

(** X4. [forward] depends on the loss object through its reduction and through
    the weight that its configuration gives to each key of [label_dict]
    only: a dictionary that gives every field the weight w acts as the float
    w, a dictionary without the fields acts as no weight, and the entries of
    a weight dictionary for other keys are never read. *)
Theorem forward_reads_weight_of_label_keys_only self self' out lab wd s :
  reduction self = reduction self' →
  (∀ key, key ∈ keys lab →
     weight_for (weight self) key = weight_for (weight self') key) →
  L1Loss_forward self out lab wd s = L1Loss_forward self' out lab wd s
  ∧ PeriodicL1Loss_forward self out lab wd s
    = PeriodicL1Loss_forward self' out lab wd s.
Proof.
  intros Hred Hw. split.
  - apply for_each_ext. intros acc key s0 Hin. unfold L1Loss_body.
    by rewrite (times_self_weight_ext self self' key (Hw key Hin)),
      (reduce_ext self self' Hred).
  - apply for_each_ext. intros acc key s0 Hin. unfold PeriodicL1Loss_body.
    by rewrite (times_self_weight_ext self self' key (Hw key Hin)),
      (reduce_ext self self' Hred).
Qed.
End Exceptions.

(** ** Tensors related place by place *)

Section Related.
Context {num : Type} `{!Arith num}.
#[local] Abbreviation tensor := (tensor num).

Lemma tensor_rel_Arr (R : num → num → Prop) (rows rows' : list tensor) :
  tensor_rel R (Arr rows) (Arr rows') ↔ Forall2 (tensor_rel R) rows rows'.
Proof.
  cbn [tensor_rel]. revert rows'.
  induction rows as [|r rows IH]; intros [|r' rows']; split; try done.
  - by intros ?%Forall2_nil_cons_inv.
  - by intros ?%Forall2_cons_nil_inv.
  - intros [Hr Hrows]. constructor; [done|]. by apply IH.
  - intros [Hr Hrows]%Forall2_cons_1. split; [done|]. by apply IH.
Qed.

Lemma tensor_rel_shape (R : num → num → Prop) (t t' : tensor) :
  tensor_rel R t t' → shape t = shape t'.
Proof.
  revert t'. induction t as [x|rows IH] using tensor_rows_ind; intros [x'|rows'];
    try done.
  intros Hrel%tensor_rel_Arr. cbn [shape].
  rewrite (Forall2_length _ _ _ Hrel). f_equal.
  destruct Hrel as [|r r' rows rows' Hr _]; [done|].
  inversion_clear IH as [|? ? IHr _]. by apply IHr.
Qed.

Lemma tensor_rel_elements (R : num → num → Prop) (t t' : tensor) :
  tensor_rel R t t' → Forall2 R (elements t) (elements t').
Proof.
  revert t'. induction t as [x|rows IH] using tensor_rows_ind; intros [x'|rows'];
    try done.
  - intros Hx. by constructor.
  - intros Hrel%tensor_rel_Arr. cbn [elements].
    induction Hrel as [|r r' rows rows' Hr _ IHrel]; [constructor|].
    inversion_clear IH as [|? ? IHr IHrows]. cbn [map concat].
    apply Forall2_app; [by apply IHr|by apply IHrel].
Qed.

Lemma mapR_rel {A B} (f f' : A → result B) (P : A → A → Prop)
    (Q : B → B → Prop) l l' ys :
  Forall2 (λ x x', P x x' ∧
             ∀ y, f x = Ok y → ∃ y', f' x' = Ok y' ∧ Q y y') l l' →
  mapR f l = Ok ys → ∃ ys', mapR f' l' = Ok ys' ∧ Forall2 Q ys ys'.
Proof.
  intros Hl. revert ys. induction Hl as [|x x' l l' [_ Hx] _ IH]; intros ys.
  - intros [= <-]. exists []. by split.
  - cbn [mapR]. destruct (f x) as [y|] eqn:Hf; [|done]. cbn [rbind].
    fold (mapR f). fold (mapR f').
    destruct (mapR f l) as [ys0|] eqn:Hm; [|done]. intros [= <-].
    destruct (Hx y eq_refl) as (y' & -> & Hy).
    destruct (IH ys0 eq_refl) as (ys' & -> & Hys).
    exists (y' :: ys'). split; [done|]. by constructor.
Qed.

Lemma zipR_rel {A B C} (f : A → B → result C) (P : A → A → Prop)
    (Q : C → C → Prop) l l' k zs :
  Forall2 (λ x x', P x x' ∧
             ∀ y z, f x y = Ok z → ∃ z', f x' y = Ok z' ∧ Q z z') l l' →
  zipR f l k = Ok zs → ∃ zs', zipR f l' k = Ok zs' ∧ Forall2 Q zs zs'.
Proof.
  intros Hl. revert k zs.
  induction Hl as [|x x' l l' [_ Hx] _ IH]; intros [|y k] zs;
    try (intros [= <-]; exists []; by split).
  cbn [zipR]. destruct (f x y) as [z|] eqn:Hf; [|done]. cbn [rbind].
  fold (zipR f).
  destruct (zipR f l k) as [zs0|] eqn:Hz; [|done]. intros [= <-].
  destruct (Hx y z Hf) as (z' & -> & Hzz).
  destruct (IH k zs0 Hz) as (zs' & -> & Hzs).
  exists (z' :: zs'). split; [done|]. by constructor.
Qed.

Lemma mapR_rel_same {A B} (f f' : A → result B) (Q : B → B → Prop) l ys :
  Forall (λ x, ∀ y, f x = Ok y → ∃ y', f' x = Ok y' ∧ Q y y') l →
  mapR f l = Ok ys → ∃ ys', mapR f' l = Ok ys' ∧ Forall2 Q ys ys'.
Proof.
  intros Hl. apply (mapR_rel f f' eq Q l l).
  induction Hl; constructor; auto.
Qed.

Lemma Forall2_with_Forall {A B} (P : A → Prop) (R : A → B → Prop) l l' :
  Forall P l → Forall2 R l l' → Forall2 (λ x x', R x x' ∧ P x) l l'.
Proof.
  intros HP HR. induction HR; inversion_clear HP; constructor; auto.
Qed.

Lemma rmap_Ok {A B} (g : A → B) (r : result A) y :
  rmap g r = Ok y → ∃ x, r = Ok x ∧ y = g x.
Proof. destruct r; [intros [= <-]; eauto|done]. Qed.

(** An elementwise operation that carries [R] to [R'] in its first operand
    does so on tensors, whatever the second operand and the broadcasting. *)
Lemma broadcast_rel (f : num → num → num) (R R' : num → num → Prop) :
  (∀ x x' y, R x x' → R' (f x y) (f x' y)) →
  ∀ a a' b t,
    tensor_rel R a a' → broadcast f a b = Ok t →
    ∃ t', broadcast f a' b = Ok t' ∧ tensor_rel R' t t'.
Proof.
  intros Hf a.
  induction a as [x|as_ IHa] using tensor_rows_ind; intros a' b;
    induction b as [y|bs IHb] using tensor_rows_ind; intros t Hrel Hb.
  - destruct a' as [x'|]; [|done]. injection Hb as <-.
    exists (Scal (f x' y)). split; [done|]. by apply Hf.
  - destruct a' as [x'|]; [|done].
    apply rmap_Ok in Hb as (ys & Hys & ->).
    destruct (mapR_rel_same (broadcast f (Scal x)) (broadcast f (Scal x'))
                (tensor_rel R') bs ys) as (ys' & Hys' & Hrel'); [|done|].
    { eapply Forall_impl; [exact IHb|]. intros bi Hbi t0. by apply Hbi. }
    exists (Arr ys'). split; [|by apply tensor_rel_Arr].
    change (rmap Arr (mapR (broadcast f (Scal x')) bs) = Ok (Arr ys')).
    by rewrite Hys'.
  - destruct a' as [|as']; [done|]. apply tensor_rel_Arr in Hrel.
    apply rmap_Ok in Hb as (ys & Hys & ->).
    destruct (mapR_rel (λ ai, broadcast f ai (Scal y))
                (λ ai, broadcast f ai (Scal y)) (tensor_rel R)
                (tensor_rel R') as_ as' ys) as (ys' & Hys' & Hrel'); [|done|].
    { eapply Forall2_impl; [by apply Forall2_with_Forall|]. intros ? ? [? IH']; split; [done|]; eauto. }
    exists (Arr ys'). split; [|by apply tensor_rel_Arr].
    change (rmap Arr (mapR (λ ai, broadcast f ai (Scal y)) as') = Ok (Arr ys')).
    by rewrite Hys'.
  - destruct a' as [|as']; [done|].
    pose proof (tensor_rel_shape _ _ _ Hrel) as Hshape.
    apply tensor_rel_Arr in Hrel.
    pose proof (Forall2_length _ _ _ Hrel) as Hlen.
    assert (Hout : Forall2 (λ ai ai', tensor_rel R ai ai' ∧
                     ∀ b t, broadcast f ai b = Ok t →
                       ∃ t', broadcast f ai' b = Ok t' ∧ tensor_rel R' t t')
                     as_ as').
    { eapply Forall2_impl; [by apply Forall2_with_Forall|]. intros ? ? [? IH']; split; [done|]; eauto. }
    assert (Hin : Forall (λ bi, ∀ t, broadcast f (Arr as_) bi = Ok t →
                     ∃ t', broadcast f (Arr as') bi = Ok t' ∧ tensor_rel R' t t')
                    bs).
    { eapply Forall_impl; [exact IHb|]. intros bi Hbi t0. apply Hbi.
      by apply tensor_rel_Arr. }
    rewrite broadcast_Arr_Arr in Hb |- *. unfold ndim in *.
    rewrite <- Hshape, <- Hlen.
    destruct (length (shape (Arr as_)) <? length (shape (Arr bs))).
    { apply rmap_Ok in Hb as (ys & Hys & ->).
      destruct (mapR_rel_same _ _ _ _ _ Hin Hys) as (ys' & -> & Hrel').
      exists (Arr ys'). split; [done|]. by apply tensor_rel_Arr. }
    destruct (length (shape (Arr bs)) <? length (shape (Arr as_))).
    { apply rmap_Ok in Hb as (ys & Hys & ->).
      destruct (mapR_rel (λ ai, broadcast f ai (Arr bs))
                  (λ ai, broadcast f ai (Arr bs)) (tensor_rel R)
                  (tensor_rel R') as_ as' ys) as (ys' & -> & Hrel'); [|done|].
      { eapply Forall2_impl; [exact Hout|]. intros ? ? [? IH']; split; [done|]; eauto. }
      exists (Arr ys'). split; [done|]. by apply tensor_rel_Arr. }
    destruct (length as_ =? length bs).
    { apply rmap_Ok in Hb as (ys & Hys & ->).
      destruct (zipR_rel (broadcast f) (tensor_rel R) (tensor_rel R')
                  as_ as' bs ys) as (ys' & -> & Hrel'); [|done|].
      { eapply Forall2_impl; [exact Hout|]. intros ? ? [? IH']; split; [done|]; eauto. }
      exists (Arr ys'). split; [done|]. by apply tensor_rel_Arr. }
    assert (Hrows : ∀ b0 ys,
              mapR (λ ai, broadcast f ai b0) as_ = Ok ys →
              ∃ ys', mapR (λ ai, broadcast f ai b0) as' = Ok ys'
                     ∧ Forall2 (tensor_rel R') ys ys').
    { intros b0 ys. apply (mapR_rel _ _ (tensor_rel R)).
      eapply Forall2_impl; [exact Hout|]. intros ? ? [? IH']; split; [done|]; eauto. }
    destruct Hout as [|a0 a0' as0 as0' [Ha0 Hbc] Hrest].
    { destruct bs as [|b0 [|b1 bs]]; [done| |done].
      injection Hb as <-. exists (Arr []). by split. }
    destruct Hrest as [|a1 a1' as1 as1' Ha1 Hrest].
    { apply rmap_Ok in Hb as (ys & Hys & ->).
      destruct (mapR_rel_same (broadcast f a0) (broadcast f a0')
                  (tensor_rel R') bs ys) as (ys' & -> & Hrel'); [|done|].
      { apply Forall_forall. intros bi _ t0. apply Hbc. }
      exists (Arr ys'). split; [done|]. by apply tensor_rel_Arr. }
    destruct bs as [|b0 [|b1 bs]]; [done| |done].
    apply rmap_Ok in Hb as (ys & Hys & ->).
    destruct (Hrows b0 ys Hys) as (ys' & -> & Hrel').
    exists (Arr ys'). split; [done|]. by apply tensor_rel_Arr.
Qed.

Lemma tensor_rel_impl (R R' : num → num → Prop) (t t' : tensor) :
  (∀ x x', R x x' → R' x x') → tensor_rel R t t' → tensor_rel R' t t'.
Proof.
  intros HR. revert t'.
  induction t as [x|rows IH] using tensor_rows_ind; intros [x'|rows']; try done.
  - apply HR.
  - rewrite !tensor_rel_Arr. intros Hrel.
    induction Hrel as [|r r' rows rows' Hr _ IHrel]; [constructor|].
    inversion_clear IH as [|? ? IHr IHrows]. constructor; [by apply IHr|].
    by apply IHrel.
Qed.

(** A scalar second operand: the operation on every element, for any
    tensor. *)
Lemma broadcast_scalar (f : num → num → num) (t : tensor) (y : num) :
  ∃ t', broadcast f t (Scal y) = Ok t'
        ∧ tensor_rel (λ x x', x' = f x y) t t'.
Proof.
  induction t as [x|rows IH] using tensor_rows_ind.
  - exists (Scal (f x y)). by split.
  - assert (∃ rows', mapR (λ r, broadcast f r (Scal y)) rows = Ok rows'
              ∧ Forall2 (tensor_rel (λ x x', x' = f x y)) rows rows')
      as (rows' & Hrows & Hrel).
    { induction IH as [|r rows (r' & Hr & Hrel) _ (rows' & Hrows & Hrels)].
      - exists []. by split.
      - exists (r' :: rows'). cbn [mapR]. rewrite Hr. cbn [rbind].
        fold (mapR (λ r, broadcast f r (Scal y))). rewrite Hrows.
        split; [done|]. by constructor. }
    exists (Arr rows'). split; [|by apply tensor_rel_Arr].
    change (rmap Arr (mapR (λ r, broadcast f r (Scal y)) rows) = Ok (Arr rows')).
    by rewrite Hrows.
Qed.
End Related.


(** ** Exact arithmetic: how the loss scales and adds up *)

Lemma agrees_returns {num} (s' : list (tensor num)) (r : result (pyval num))
    (d : result (tensor num)) (t : tensor num) :
  agrees s' r d → returns (s', r) t → d = Ok t.
Proof.
  intros Ha (v & Hv & Ht). cbn [fst snd] in *. subst r. destruct d as [t'|e].
  - destruct Ha as (v' & [= <-] & Ht'). congruence.
  - done.
Qed.

Lemma Qsum_app (l k : list Q) : (Qsum (l ++ k) == Qsum l + Qsum k)%Q.
Proof.
  induction l as [|x l IH]; cbn [app].
  - change (Qsum []) with 0%Q. ring.
  - rewrite !Qsum_cons, IH. ring.
Qed.

Lemma Qsum_scaled (w : Q) (l l' : list Q) :
  Forall2 (λ x x', x' == x * w)%Q l l' → (Qsum l' == Qsum l * w)%Q.
Proof.
  induction 1 as [|x x' l l' Hx _ IH].
  - change (Qsum []) with 0%Q. ring.
  - rewrite !Qsum_cons, IH, Hx. ring.
Qed.

Lemma total_from_inv (c : string → result (tensor Q)) ks :
  (∀ key, scalar_or_raises (c key)) →
  ∀ a0 q, total_from (Scal a0) c ks = Ok (Scal q) →
  ∃ f, Forall2 (λ k a, c k = Ok (Scal a)) ks f ∧ (q == a0 + Qsum f)%Q.
Proof.
  intros Hc. induction ks as [|k ks IH]; intros a0 q.
  - intros [= <-]. exists []. split; [constructor|].
    change (Qsum []) with 0%Q. ring.
  - cbn [total_from]. specialize (Hc k) as Hk.
    destruct (c k) as [v|] eqn:Hck; [|done]. destruct Hk as [a ->].
    cbn [rbind].
    change (tensor_add (Scal a0) (Scal a)) with (Ok (Scal (Qred (a0 + a)))).
    cbn [rbind]. intros (f & Hf & Hq)%IH.
    exists (a :: f). split; [by constructor|].
    rewrite Hq, Qsum_cons, Qred_correct. ring.
Qed.

Lemma total_from_intro (c : string → result (tensor Q)) ks f :
  Forall2 (λ k a, c k = Ok (Scal a)) ks f →
  ∀ a0, ∃ q, total_from (Scal a0) c ks = Ok (Scal q) ∧ (q == a0 + Qsum f)%Q.
Proof.
  induction 1 as [|k a ks f Hk _ IH]; intros a0.
  - exists a0. split; [done|]. change (Qsum []) with 0%Q. ring.
  - cbn [total_from]. rewrite Hk. cbn [rbind].
    change (tensor_add (Scal a0) (Scal a)) with (Ok (Scal (Qred (a0 + a)))).
    cbn [rbind]. destruct (IH (Qred (a0 + a))) as (q & -> & Hq).
    exists q. split; [done|]. rewrite Hq, Qsum_cons, Qred_correct. ring.
Qed.

Lemma Forall2_transform {A B} (P P' : A → B → Prop) (S : B → B → Prop) ks f :
  Forall2 P ks f →
  (∀ k a, k ∈ ks → P k a → ∃ a', P' k a' ∧ S a a') →
  ∃ f', Forall2 P' ks f' ∧ Forall2 S f f'.
Proof.
  induction 1 as [|k a ks f Hk _ IH]; intros HP.
  - exists []. by split.
  - destruct (HP k a) as (a' & Ha' & Hs); [left|done|].
    destruct IH as (f' & Hf' & Hss).
    { intros k0 a0 Hin. apply HP. by right. }
    exists (a' :: f'). split; by constructor.
Qed.

Lemma reduced_scaled (red : string) (w : Q) (e e' : tensor Q) :
  red = "mean" ∨ red = "sum" →
  tensor_rel (λ x x', x' == x * w)%Q e e' →
  ∃ r r', reduced red e = Scal r ∧ reduced red e' = Scal r' ∧ (r' == r * w)%Q.
Proof.
  intros Hred Hrel%tensor_rel_elements.
  pose proof (Forall2_length _ _ _ Hrel) as Hlen.
  pose proof (Qsum_scaled _ _ _ Hrel) as Hsum.
  unfold reduced, tensor_sum, tensor_mean, numel.
  destruct Hred as [-> | ->]; repeat case_decide; try done;
    eexists _, _; (split; [done|]); (split; [done|]).
  - change (div ?a ?b) with (Qred (a / b)).
    rewrite !Qred_correct, !sum_list_Qsum, Hsum, Hlen. unfold Qdiv. ring.
  - by rewrite !sum_list_Qsum.
Qed.

Lemma contribution_float_weight pre (red : string) (w : Q) area W key
    (e : tensor Q) (a : Q) :
  red = "mean" ∨ red = "sum" →
  contribution pre (mkLoss red WNone) area W key e = Ok (Scal a) →
  ∃ a', contribution pre (mkLoss red (WFloat w)) area W key e = Ok (Scal a')
        ∧ (a' == a * (if pre then w * w else w))%Q.
Proof.
  intros Hred. unfold contribution, weighted_before_area, reduced_and_weighted.
  cbn [weight weight_for scaled reduction].
  destruct (dict_weighted W key e) as [e1|]; [|done]. cbn [rbind].
  set (R := (λ x x' : Q, x' == x * w)%Q).
  assert (Hmul : ∀ x x' y : Q, R x x' → R (mul x y) (mul x' y)).
  { intros x x' y Hx. unfold R in *. change (mul ?a ?b) with (Qred (a * b)).
    rewrite !Qred_correct, Hx. ring. }
  destruct pre.
  - cbn [rbind].
    destruct (area_weighted area e1) as [e3|] eqn:Harea; [|done]. cbn [rbind].
    intros [= Hr].
    destruct (broadcast_scalar mul e1 w) as (e2' & He2' & Hrel).
    unfold tensor_mul at 1. rewrite He2'. cbn [rbind].
    apply (tensor_rel_impl _ R) in Hrel.
    2:{ intros x x' ->. unfold R. change (mul x w) with (Qred (x * w)).
        apply Qred_correct. }
    assert (∃ e3', area_weighted area e2' = Ok e3' ∧ tensor_rel R e3 e3')
      as (e3' & -> & Hrel3).
    { destruct area as [ar|]; cbn [area_weighted] in *.
      - by eapply broadcast_rel.
      - injection Harea as <-. eauto. }
    cbn [rbind].
    destruct (reduced_scaled red w e3 e3' Hred Hrel3) as (r & r' & Hr0 & -> & Hrr).
    rewrite Hr0 in Hr. injection Hr as ->.
    eexists. split; [reflexivity|].
    change (mul r' w) with (Qred (r' * w)). rewrite Qred_correct, Hrr. ring.
  - cbn [rbind].
    destruct (area_weighted area e1) as [e3|] eqn:Harea; [|done]. cbn [rbind].
    intros [= ->]. eexists. split; [reflexivity|].
    change (mul a w) with (Qred (a * w)). apply Qred_correct.
Qed.

Lemma total_float_weight (c c' : string → result (tensor Q)) (k : Q) ks q :
  (∀ key, scalar_or_raises (c key)) →
  (∀ key a, c key = Ok (Scal a) → ∃ a', c' key = Ok (Scal a') ∧ (a' == a * k)%Q) →
  total c ks = Ok (Scal q) →
  ∃ q', total c' ks = Ok (Scal q') ∧ (q' == q * k)%Q.
Proof.
  intros Hscal Hc Ht. unfold total in *. change (@zero Q _) with 0%Q in *.
  destruct (total_from_inv c ks Hscal _ _ Ht) as (f & Hf & Hq).
  destruct (Forall2_transform _ (λ key a, c' key = Ok (Scal a))
              (λ a a', a' == a * k)%Q _ _ Hf) as (f' & Hf' & Hff).
  { intros key a _. apply Hc. }
  destruct (total_from_intro c' ks f' Hf' 0%Q) as (q' & -> & Hq').
  exists q'. split; [done|]. rewrite Hq', Hq, (Qsum_scaled k f f' Hff). ring.
Qed.

(** X5. In exact arithmetic the float weight w of the constructor multiplies
    the result of [L1Loss.forward] by w * w, whatever [weight_dict] and
    the area are: if the call without weight returns q, the call with the
    weight w returns q * w * w. *)
Theorem L1_float_weight_squares (red : string) (w : Q) out lab wd
    (s : list (tensor Q)) (q : Q) :
  red = "mean" ∨ red = "sum" →
  valid s out → valid_ordered s lab → valid_option s wd →
  returns (L1Loss_forward (mkLoss red WNone) out lab wd s) (Scal q) →
  ∃ q', returns (L1Loss_forward (mkLoss red (WFloat w)) out lab wd s) (Scal q')
        ∧ (q' == q * w * w)%Q.
Proof.
  intros Hred Hout Hlab Hwd Hret.
  destruct (L1Loss_forward_run s (mkLoss red WNone) out lab wd)
    as (s0 & r0 & Hrun0 & _ & Ha0); [done..|].
  destruct (L1Loss_forward_run s (mkLoss red (WFloat w)) out lab wd)
    as (s1 & r1 & Hrun1 & _ & Ha1); [done..|].
  rewrite Hrun0 in Hret. rewrite Hrun1.
  pose proof (agrees_returns _ _ _ _ Ha0 Hret) as Ht.
  destruct (total_float_weight
              (L1_loss (mkLoss red WNone) (tensors s out)
                 (tensors_ordered s lab) (tensors s <$> wd))
              (L1_loss (mkLoss red (WFloat w)) (tensors s out)
                 (tensors_ordered s lab) (tensors s <$> wd))
              (w * w)%Q (keys lab) q) as (q' & Hq' & Hqq); [| |exact Ht|].
  { intros key. unfold L1_loss. destruct (l1_elementwise _ _ key); [|done].
    by apply contribution_scalar. }
  { intros key a. unfold L1_loss. destruct (l1_elementwise _ _ key); [|done].
    by apply (contribution_float_weight true). }
  rewrite Hq' in Ha1. exists q'. split; [exact Ha1|]. rewrite Hqq. ring.
Qed.

(** X6. In exact arithmetic the float weight w of the constructor multiplies
    the result of [PeriodicL1Loss.forward] by w. *)
Theorem periodic_float_weight_scales (red : string) (w : Q) out lab wd
    (s : list (tensor Q)) (q : Q) :
  red = "mean" ∨ red = "sum" →
  valid s out → valid_option s wd →
  returns (PeriodicL1Loss_forward (mkLoss red WNone) out lab wd s) (Scal q) →
  ∃ q', returns (PeriodicL1Loss_forward (mkLoss red (WFloat w)) out lab wd s)
          (Scal q')
        ∧ (q' == q * w)%Q.
Proof.
  intros Hred Hout Hwd Hret.
  destruct (PeriodicL1Loss_forward_run s (mkLoss red WNone) out lab wd)
    as (s0 & r0 & Hrun0 & _ & Ha0); [done..|].
  destruct (PeriodicL1Loss_forward_run s (mkLoss red (WFloat w)) out lab wd)
    as (s1 & r1 & Hrun1 & _ & Ha1); [done..|].
  rewrite Hrun0 in Hret. rewrite Hrun1.
  pose proof (agrees_returns _ _ _ _ Ha0 Hret) as Ht.
  destruct (total_float_weight
              (periodic_loss (mkLoss red WNone) (tensors s out)
                 (tensors s <$> wd))
              (periodic_loss (mkLoss red (WFloat w)) (tensors s out)
                 (tensors s <$> wd))
              w (keys lab) q) as (q' & Hq' & Hqq); [| |exact Ht|].
  { intros key. unfold periodic_loss.
    destruct (periodic_elementwise _ key); [|done].
    by apply contribution_scalar. }
  { intros key a. unfold periodic_loss.
    destruct (periodic_elementwise _ key); [|done].
    by apply (contribution_float_weight false). }
  rewrite Hq' in Ha1. exists q'. by split.
Qed.

Lemma total_app (c : string → result (tensor Q)) ks1 ks2 :
  (∀ key, scalar_or_raises (c key)) →
  (∀ q, total c (ks1 ++ ks2) = Ok (Scal q) →
     ∃ q1 q2, total c ks1 = Ok (Scal q1) ∧ total c ks2 = Ok (Scal q2)
              ∧ (q == q1 + q2)%Q)
  ∧ (∀ q1 q2, total c ks1 = Ok (Scal q1) → total c ks2 = Ok (Scal q2) →
     ∃ q, total c (ks1 ++ ks2) = Ok (Scal q) ∧ (q == q1 + q2)%Q).
Proof.
  intros Hscal. unfold total. change (@zero Q _) with 0%Q. split.
  - intros q (f & Hf & Hq)%total_from_inv; [|done].
    apply Forall2_app_inv_l in Hf as (f1 & f2 & Hf1 & Hf2 & ->).
    destruct (total_from_intro c ks1 f1 Hf1 0%Q) as (q1 & -> & Hq1).
    destruct (total_from_intro c ks2 f2 Hf2 0%Q) as (q2 & -> & Hq2).
    exists q1, q2. split; [done|]. split; [done|].
    rewrite Hq, Hq1, Hq2, Qsum_app. ring.
  - intros q1 q2 (f1 & Hf1 & Hq1)%total_from_inv (f2 & Hf2 & Hq2)%total_from_inv;
      [|done..].
    assert (Hf : Forall2 (λ k a, c k = Ok (Scal a)) (ks1 ++ ks2) (f1 ++ f2))
      by (by apply Forall2_app).
    destruct (total_from_intro c (ks1 ++ ks2) (f1 ++ f2) Hf 0%Q)
      as (q & -> & Hq).
    exists q. split; [done|]. rewrite Hq, Hq1, Hq2, Qsum_app. ring.
Qed.

(** X7. In exact arithmetic, [PeriodicL1Loss.forward] on a label dictionary is
    the sum of its results on two parts of the dictionary: if it returns on
    the whole, it returns on each part, and conversely, and the result on
    the whole is the sum of the two. *)
Theorem periodic_forward_adds_over_parts (self : Loss Q) out lab1 lab2 wd
    (s : list (tensor Q)) :
  reduction self = "mean" ∨ reduction self = "sum" →
  valid s out → valid_option s wd →
  (∀ q, returns (PeriodicL1Loss_forward self out (lab1 ++ lab2) wd s) (Scal q) →
     ∃ q1 q2,
       returns (PeriodicL1Loss_forward self out lab1 wd s) (Scal q1)
       ∧ returns (PeriodicL1Loss_forward self out lab2 wd s) (Scal q2)
       ∧ (q == q1 + q2)%Q)
  ∧ (∀ q1 q2,
       returns (PeriodicL1Loss_forward self out lab1 wd s) (Scal q1) →
       returns (PeriodicL1Loss_forward self out lab2 wd s) (Scal q2) →
       ∃ q, returns (PeriodicL1Loss_forward self out (lab1 ++ lab2) wd s) (Scal q)
            ∧ (q == q1 + q2)%Q).
Proof.
  intros Hred Hout Hwd.
  destruct (PeriodicL1Loss_forward_run s self out (lab1 ++ lab2) wd)
    as (s0 & r0 & Hrun0 & _ & Ha0); [done..|].
  destruct (PeriodicL1Loss_forward_run s self out lab1 wd)
    as (s1 & r1 & Hrun1 & _ & Ha1); [done..|].
  destruct (PeriodicL1Loss_forward_run s self out lab2 wd)
    as (s2 & r2 & Hrun2 & _ & Ha2); [done..|].
  rewrite Hrun0, Hrun1, Hrun2. rewrite keys_app in Ha0.
  destruct (total_app (periodic_loss self (tensors s out) (tensors s <$> wd))
              (keys lab1) (keys lab2)) as [Hsplit Hjoin].
  { intros key. unfold periodic_loss.
    destruct (periodic_elementwise _ key); [|done]. by apply contribution_scalar. }
  split.
  - intros q Hret. pose proof (agrees_returns _ _ _ _ Ha0 Hret) as Ht.
    destruct (Hsplit q Ht) as (q1 & q2 & Hq1 & Hq2 & Hq).
    rewrite Hq1 in Ha1. rewrite Hq2 in Ha2. by exists q1, q2.
  - intros q1 q2 Hret1 Hret2.
    pose proof (agrees_returns _ _ _ _ Ha1 Hret1) as Ht1.
    pose proof (agrees_returns _ _ _ _ Ha2 Hret2) as Ht2.
    destruct (Hjoin q1 q2 Ht1 Ht2) as (q & Hq & Hqq).
    rewrite Hq in Ha0. by exists q.
Qed.

Lemma assoc_app_l {V} (d1 d2 : list (string * V)) key :
  key ∈ keys d1 → assoc (d1 ++ d2) key = assoc d1 key.
Proof.
  induction d1 as [|[k v] d1 IH]; [by intros ?%elem_of_nil|].
  cbn [keys map fst app assoc]. intros Hin. case_decide; [done|].
  apply IH. apply elem_of_cons in Hin as [->|Hin]; done.
Qed.

Lemma assoc_app_r {V} (d1 d2 : list (string * V)) key :
  key ∉ keys d1 → assoc (d1 ++ d2) key = assoc d2 key.
Proof.
  induction d1 as [|[k v] d1 IH]; [done|].
  cbn [keys map fst app assoc]. intros Hin. case_decide as Hk.
  - subst k. exfalso. apply Hin. left.
  - apply IH. intros Hin'. apply Hin. by right.
Qed.

Lemma L1_loss_label_part (self : Loss Q) (s : list (tensor Q))
    (O : gmap string (tensor Q)) W lab lab' key :
  valid_ordered s lab → valid_ordered s lab' →
  assoc lab key = assoc lab' key →
  L1_loss self O (tensors_ordered s lab) W key
  = L1_loss self O (tensors_ordered s lab') W key.
Proof.
  intros Hv Hv' Hk. unfold L1_loss, l1_elementwise.
  by rewrite !assoc_tensors_ordered, Hk by done.
Qed.

(** X8. In exact arithmetic, [L1Loss.forward] on a label dictionary is the sum
    of its results on two parts of the dictionary (a dictionary has no key
    twice): if it returns on the whole, it returns on each part, and
    conversely, and the result on the whole is the sum of the two. *)
Theorem L1_forward_adds_over_parts (self : Loss Q) out lab1 lab2 wd
    (s : list (tensor Q)) :
  reduction self = "mean" ∨ reduction self = "sum" →
  NoDup (keys (lab1 ++ lab2)) →
  valid s out → valid_ordered s (lab1 ++ lab2) → valid_option s wd →
  (∀ q, returns (L1Loss_forward self out (lab1 ++ lab2) wd s) (Scal q) →
     ∃ q1 q2,
       returns (L1Loss_forward self out lab1 wd s) (Scal q1)
       ∧ returns (L1Loss_forward self out lab2 wd s) (Scal q2)
       ∧ (q == q1 + q2)%Q)
  ∧ (∀ q1 q2,
       returns (L1Loss_forward self out lab1 wd s) (Scal q1) →
       returns (L1Loss_forward self out lab2 wd s) (Scal q2) →
       ∃ q, returns (L1Loss_forward self out (lab1 ++ lab2) wd s) (Scal q)
            ∧ (q == q1 + q2)%Q).
Proof.
  intros Hred Hnodup Hout Hlab Hwd.
  pose proof Hlab as [Hlab1 Hlab2]%Forall_app.
  rewrite keys_app in Hnodup. apply NoDup_app in Hnodup as (_ & Hdisj & _).
  destruct (L1Loss_forward_run s self out (lab1 ++ lab2) wd)
    as (s0 & r0 & Hrun0 & _ & Ha0); [done..|].
  destruct (L1Loss_forward_run s self out lab1 wd)
    as (s1 & r1 & Hrun1 & _ & Ha1); [done..|].
  destruct (L1Loss_forward_run s self out lab2 wd)
    as (s2 & r2 & Hrun2 & _ & Ha2); [done..|].
  rewrite Hrun0, Hrun1, Hrun2. rewrite keys_app in Ha0.
  set (c := L1_loss self (tensors s out) (tensors_ordered s (lab1 ++ lab2))
              (tensors s <$> wd)) in *.
  rewrite (total_ext _ c) in Ha1.
  2:{ intros key Hin. apply L1_loss_label_part; [done..|].
      symmetry. by apply assoc_app_l. }
  rewrite (total_ext _ c) in Ha2.
  2:{ intros key Hin. apply L1_loss_label_part; [done..|].
      symmetry. apply assoc_app_r. intros Hin1. by eapply Hdisj. }
  destruct (total_app c (keys lab1) (keys lab2)) as [Hsplit Hjoin].
  { intros key. unfold c, L1_loss.
    destruct (l1_elementwise _ _ key); [|done]. by apply contribution_scalar. }
  split.
  - intros q Hret. pose proof (agrees_returns _ _ _ _ Ha0 Hret) as Ht.
    destruct (Hsplit q Ht) as (q1 & q2 & Hq1 & Hq2 & Hq).
    rewrite Hq1 in Ha1. rewrite Hq2 in Ha2. by exists q1, q2.
  - intros q1 q2 Hret1 Hret2.
    pose proof (agrees_returns _ _ _ _ Ha1 Hret1) as Ht1.
    pose proof (agrees_returns _ _ _ _ Ha2 Hret2) as Ht2.
    destruct (Hjoin q1 q2 Ht1 Ht2) as (q & Hq & Hqq).
    rewrite Hq in Ha0. by exists q.
Qed.

(** ** Exact arithmetic: sign and zero *)

Lemma Qsum_nonneg (l : list Q) :
  Forall (λ a, 0 <= a)%Q l → (0 <= Qsum l)%Q.
Proof.
  induction 1 as [|a l Ha _ IH].
  - change (Qsum []) with 0%Q. apply Qle_refl.
  - rewrite Qsum_cons. rewrite <- (Qplus_0_l 0). by apply Qplus_le_compat.
Qed.

Lemma Qsum_zero (l : list Q) :
  Forall (λ a, 0 <= a)%Q l →
  (Qsum l == 0)%Q ↔ Forall (λ a, a == 0)%Q l.
Proof.
  induction 1 as [|a l Ha Hl IH].
  - split; [constructor|reflexivity].
  - rewrite Qsum_cons. pose proof (Qsum_nonneg l Hl) as Hs. split.
    + intros Hz.
      assert (Ha0 : (a == 0)%Q).
      { apply Qle_antisym; [|done]. rewrite <- Hz.
        rewrite <- (Qplus_0_r a) at 1. by apply Qplus_le_compat; [apply Qle_refl|]. }
      constructor; [done|]. apply IH. rewrite Ha0, Qplus_0_l in Hz. exact Hz.
    + intros Hall. inversion_clear Hall as [|? ? Ha0 Hl0].
      apply IH in Hl0. rewrite Ha0, Hl0. reflexivity.
Qed.

Lemma Qabs_zero (x : Q) : (Qabs x == 0)%Q ↔ (x == 0)%Q.
Proof.
  split.
  - intros Hx. assert (Hle : (Qabs x <= 0)%Q) by (rewrite Hx; apply Qle_refl).
    apply Qabs_Qle_condition in Hle as [Hl Hu].
    apply Qle_antisym; [done|]. exact Hl.
  - intros ->. reflexivity.
Qed.

Lemma abs_differences_nonneg (x y : tensor Q) :
  Forall (λ a, 0 <= a)%Q (abs_differences x y).
Proof.
  unfold abs_differences. generalize (elements x) (elements y).
  intros l. induction l as [|a l IH]; intros [|b k]; cbn [zip_with];
    constructor; [apply Qabs_nonneg|apply IH].
Qed.

Lemma abs_differences_zero (l k : list Q) :
  length l = length k →
  Forall (λ a, a == 0)%Q (zip_with (λ a b, Qabs (a - b)%Q) l k)
  ↔ Forall2 Qeq l k.
Proof.
  revert k. induction l as [|a l IH]; intros [|b k] Hlen; try done.
  cbn [zip_with]. injection Hlen as Hlen. split.
  - intros Hall. inversion_clear Hall as [|? ? Ha Hl].
    constructor; [|by apply IH].
    apply (proj1 (Qabs_zero (a - b))) in Ha.
    assert (Hab : (a == (a - b) + b)%Q) by ring. rewrite Hab, Ha. ring.
  - intros Hall. inversion_clear Hall as [|? ? ? ? Ha Hl].
    constructor; [|by apply IH]. apply (proj2 (Qabs_zero (a - b))).
    rewrite Ha. ring.
Qed.

Lemma documented_L1_nonneg (red : string) (x y : tensor Q) :
  (0 <= documented_L1 red x y)%Q.
Proof.
  pose proof (Qsum_nonneg _ (abs_differences_nonneg x y)) as Hs.
  unfold documented_L1. case_decide; [|done].
  apply Qmult_le_0_compat; [|done]. unfold Qdiv. rewrite Qmult_1_l.
  apply Qinv_le_0_compat. unfold Qle. simpl. lia.
Qed.

Lemma documented_L1_zero (red : string) (x y : tensor Q) :
  length (elements x) = length (elements y) →
  (documented_L1 red x y == 0)%Q ↔ Forall2 Qeq (elements x) (elements y).
Proof.
  intros Hlen.
  rewrite <- (abs_differences_zero _ _ Hlen).
  fold (abs_differences x y).
  rewrite <- (Qsum_zero _ (abs_differences_nonneg x y)).
  unfold documented_L1. case_decide; [|done].
  destruct (numel x) as [|n] eqn:Hn.
  - unfold numel in Hn. apply nil_length_inv in Hn.
    unfold abs_differences. rewrite Hn. cbn [zip_with].
    change (Qsum []) with 0%Q. split; intros _; [reflexivity|ring].
  - assert (Hpos : ¬ (inject_Z (Z.of_nat (S n)) == 0)%Q).
    { unfold Qeq. simpl. lia. }
    split.
    + intros Hz.
      assert (Heq : (Qsum (abs_differences x y)
               == inject_Z (Z.of_nat (S n))
                  * (1 / inject_Z (Z.of_nat (S n)) * Qsum (abs_differences x y)))%Q)
        by (by field).
      rewrite Heq, Hz. ring.
    + intros ->. ring.
Qed.

(** X9. In exact arithmetic, without weights or area, and for outputs and
    labels of one shape (with at least one element when the reduction is
    "mean", so that no mean is taken over no element), the L1 loss is never
    negative, and it is zero exactly when, for every key, the output and the
    label have the same elements. *)
Theorem L1_unweighted_nonnegative_zero_iff_equal (self : Loss Q) out lab
    (s : list (tensor Q)) :
  weight self = WNone →
  reduction self = "mean" ∨ reduction self = "sum" →
  valid s out → valid_ordered s lab →
  out !! "area" = None →
  (∀ key, key ∈ keys lab →
     ∃ x y, tensors s out !! key = Some x
            ∧ assoc (tensors_ordered s lab) key = Some y
            ∧ rect x = true ∧ rect y = true ∧ shape x = shape y
            ∧ (reduction self = "mean" → 0 < numel x)) →
  ∃ q, returns (L1Loss_forward self out lab None s) (Scal q)
       ∧ (0 <= q)%Q
       ∧ ((q == 0)%Q ↔
          ∀ key x y, key ∈ keys lab →
            tensors s out !! key = Some x →
            assoc (tensors_ordered s lab) key = Some y →
            Forall2 Qeq (elements x) (elements y)).
Proof.
  intros Hweight Hred Hout Hlab Harea Hkeys.
  destruct (L1Loss_forward_run s self out lab None)
    as (s' & r & Hrun & _ & Ha); [done..|].
  set (doc := documented_L1_of_key (reduction self) (tensors s out)
                (tensors_ordered s lab)).
  destruct (total_from_Qsum
              (L1_loss self (tensors s out) (tensors_ordered s lab)
                 (tensors s <$> None)) doc (keys lab))
    with (a := 0%Q) as (q & Hq & Hsum).
  { intros key Hin. destruct (Hkeys key Hin) as (x & y & Hx & Hy & Hrx & Hry & Hsh & _).
    rewrite (L1_loss_plain _ _ _ _ x y); try done.
    - unfold doc, documented_L1_of_key. rewrite Hx, Hy.
      destruct (reduced_documented (reduction self) x y) as (v & -> & Hv); eauto.
    - by apply tensors_lookup_None. }
  unfold total in Ha. change (@zero Q Q_Arith) with 0%Q in Ha.
  rewrite Hq in Ha. rewrite Hrun. exists q. split; [exact Ha|].
  rewrite Qplus_0_l in Hsum.
  assert (Hnn : Forall (λ a, 0 <= a)%Q (map doc (keys lab))).
  { apply Forall_forall. intros a (key & -> & Hin)%list_elem_of_fmap.
    unfold doc, documented_L1_of_key.
    destruct (tensors s out !! key); [|apply Qle_refl].
    destruct (assoc _ key); [|apply Qle_refl]. apply documented_L1_nonneg. }
  split; [rewrite Hsum; by apply Qsum_nonneg|].
  rewrite Hsum, (Qsum_zero _ Hnn), Forall_forall. split.
  - intros Hall key x y Hin Hx Hy.
    destruct (Hkeys key Hin) as (x0 & y0 & Hx0 & Hy0 & Hrx & Hry & Hsh & _).
    assert (x0 = x) as -> by congruence. assert (y0 = y) as -> by congruence.
    destruct (elements_zip_tensor abs_diff x y Hrx Hry Hsh) as [_ Hlen].
    apply (documented_L1_zero (reduction self)); [done|].
    assert (Hd : doc key = documented_L1 (reduction self) x y)
      by (unfold doc, documented_L1_of_key; by rewrite Hx, Hy).
    rewrite <- Hd. apply Hall. apply list_elem_of_fmap. by exists key.
  - intros Heq a (key & -> & Hin)%list_elem_of_fmap.
    destruct (Hkeys key Hin) as (x & y & Hx & Hy & Hrx & Hry & Hsh & _).
    destruct (elements_zip_tensor abs_diff x y Hrx Hry Hsh) as [_ Hlen].
    unfold doc, documented_L1_of_key. rewrite Hx, Hy.
    apply documented_L1_zero; [done|]. by eapply Heq.
Qed.

Lemma total_nonneg_zero (c : string → result (tensor Q)) (doc : string → Q) ks :
  (∀ key, key ∈ ks → ∃ v, c key = Ok (Scal v) ∧ (v == doc key)%Q) →
  (∀ key, key ∈ ks → (0 <= doc key)%Q) →
  ∃ q, total c ks = Ok (Scal q) ∧ (0 <= q)%Q
       ∧ ((q == 0)%Q ↔ ∀ key, key ∈ ks → (doc key == 0)%Q).
Proof.
  intros Hc Hdoc.
  destruct (total_from_Qsum c doc ks Hc 0%Q) as (q & Hq & Hsum).
  exists q. split; [exact Hq|]. rewrite Qplus_0_l in Hsum.
  assert (Hnn : Forall (λ a, 0 <= a)%Q (map doc ks)).
  { apply Forall_forall. intros a (key & -> & Hin)%list_elem_of_fmap. auto. }
  split; [rewrite Hsum; by apply Qsum_nonneg|].
  rewrite Hsum, (Qsum_zero _ Hnn), Forall_forall. split.
  - intros Hall key Hin. apply Hall, list_elem_of_fmap. by exists key.
  - intros Hall a (key & -> & Hin)%list_elem_of_fmap. auto.
Qed.

Lemma periodic_loss_plain (self : Loss Q) (O : gmap string (tensor Q)) key rows :
  weight self = WNone → O !! "area" = None →
  O !! key = Some (Arr rows) → rect (Arr rows) = true →
  Nat.even (length rows) = true →
  let lo := Arr (take (length rows / 2) rows) in
  let hi := Arr (drop (length rows / 2) rows) in
  periodic_loss self O None key
  = Ok (reduced (reduction self) (zip_tensor abs_diff lo hi))
  ∧ rect lo = true ∧ rect hi = true ∧ shape lo = shape hi.
Proof.
  intros Hw Harea Hkey Hrect Hev lo hi. split.
  - unfold periodic_loss. rewrite (periodic_elementwise_even O key rows) by done.
    unfold contribution, weighted_before_area, reduced_and_weighted.
    by rewrite Hw, Harea.
  - split; [|split].
    + eapply rect_sublist; [done|apply subseteq_take].
    + eapply rect_sublist; [done|apply subseteq_drop].
    + apply shape_halves; [done|by apply even_half].
Qed.

(** X10. In exact arithmetic, without weights or area, and for outputs of
    even leading dimension (with at least one element when the reduction is
    "mean", so that no mean is taken over no element), the periodic loss is
    never negative, and it is zero exactly when, for every key, the two
    halves of the output have the same elements: when the output is
    periodic. *)
Theorem periodic_unweighted_nonnegative_zero_iff_periodic (self : Loss Q)
    out lab (s : list (tensor Q)) :
  weight self = WNone →
  reduction self = "mean" ∨ reduction self = "sum" →
  valid s out →
  out !! "area" = None →
  (∀ key, key ∈ keys lab →
     ∃ rows, tensors s out !! key = Some (Arr rows)
             ∧ rect (Arr rows) = true ∧ Nat.even (length rows) = true
             ∧ (reduction self = "mean" → 0 < numel (Arr rows))) →
  ∃ q, returns (PeriodicL1Loss_forward self out lab None s) (Scal q)
       ∧ (0 <= q)%Q
       ∧ ((q == 0)%Q ↔
          ∀ key rows, key ∈ keys lab →
            tensors s out !! key = Some (Arr rows) →
            Forall2 Qeq (elements (Arr (take (length rows / 2) rows)))
                        (elements (Arr (drop (length rows / 2) rows)))).
Proof.
  intros Hweight Hred Hout Harea Hkeys.
  destruct (PeriodicL1Loss_forward_run s self out lab None)
    as (s' & r & Hrun & _ & Ha); [done..|].
  set (doc := λ key,
         match tensors s out !! key with
         | Some (Arr rows) =>
             documented_L1 (reduction self)
               (Arr (take (length rows / 2) rows))
               (Arr (drop (length rows / 2) rows))
         | _ => 0%Q
         end).
  change (tensors s <$> None) with (@None (gmap string (tensor Q))) in Ha.
  destruct (total_nonneg_zero
              (periodic_loss self (tensors s out) None) doc
              (keys lab)) as (q & Hq & Hnn & Hzero).
  { intros key Hin. destruct (Hkeys key Hin) as (rows & Hrows & Hrect & Hev & _).
    destruct (periodic_loss_plain self (tensors s out) key rows)
      as (-> & Hlo & Hhi & Hsh); [done|by apply tensors_lookup_None|done..|].
    unfold doc. rewrite Hrows.
    destruct (reduced_documented (reduction self) _ _ Hred Hlo Hhi Hsh)
      as (v & -> & Hv). eauto. }
  { intros key _. unfold doc.
    destruct (tensors s out !! key) as [[|rows]|]; try apply Qle_refl.
    apply documented_L1_nonneg. }
  rewrite Hq in Ha. rewrite Hrun. exists q. split; [exact Ha|].
  split; [done|]. rewrite Hzero. split.
  - intros Hall key rows Hin Hrows.
    destruct (Hkeys key Hin) as (rows0 & Hrows0 & Hrect & Hev & _).
    assert (rows0 = rows) as -> by congruence.
    destruct (periodic_loss_plain self (tensors s out) key rows)
      as (_ & Hlo & Hhi & Hsh); [done|by apply tensors_lookup_None|done..|].
    destruct (elements_zip_tensor abs_diff _ _ Hlo Hhi Hsh) as [_ Hlen].
    apply (documented_L1_zero (reduction self)); [done|].
    specialize (Hall key Hin). unfold doc in Hall. by rewrite Hrows in Hall.
  - intros Hall key Hin.
    destruct (Hkeys key Hin) as (rows & Hrows & Hrect & Hev & _).
    destruct (periodic_loss_plain self (tensors s out) key rows)
      as (_ & Hlo & Hhi & Hsh); [done|by apply tensors_lookup_None|done..|].
    destruct (elements_zip_tensor abs_diff _ _ Hlo Hhi Hsh) as [_ Hlen].
    unfold doc. rewrite Hrows. apply documented_L1_zero; [done|]. by eapply Hall.
Qed.

(** ** Calls in sequence *)

Section Again.
Context {num : Type} `{!Arith num}.
#[local] Abbreviation tensor := (tensor num).
#[local] Abbreviation store := (list tensor).

Lemma valid_prefix (s s' : store) (d : gmap string loc) :
  s `prefix_of` s' → valid s d → valid s' d.
Proof.
  intros Hp Hd key l Hl. specialize (Hd key l Hl). simpl in *.
  apply prefix_length in Hp. lia.
Qed.

Lemma valid_ordered_prefix (s s' : store) (d : list (string * loc)) :
  s `prefix_of` s' → valid_ordered s d → valid_ordered s' d.
Proof.
  intros Hp Hd. eapply Forall_impl; [exact Hd|]. intros kl Hl. simpl in *.
  apply prefix_length in Hp. lia.
Qed.

(** X11. A call of [forward] leaves nothing behind that a later call reads: the
    same call made again, in the store that the first one left (whether it
    returned or raised), has the same outcome. *)
Theorem forward_again_has_same_outcome (self : Loss num) out lab wd (s : store) :
  valid s out → valid_ordered s lab → valid_option s wd →
  let run := L1Loss_forward self out lab wd s in
  let again := L1Loss_forward self out lab wd run.1 in
  let run' := PeriodicL1Loss_forward self out lab wd s in
  let again' := PeriodicL1Loss_forward self out lab wd run'.1 in
  (∃ d, agrees run.1 run.2 d ∧ agrees again.1 again.2 d)
  ∧ (∃ d, agrees run'.1 run'.2 d ∧ agrees again'.1 again'.2 d).
Proof.
  intros Hout Hlab Hwd run again run' again'.
  assert (Hopt : ∀ s', s `prefix_of` s' →
            valid_option s' wd ∧ (tensors s' <$> wd) = (tensors s <$> wd)).
  { intros s' Hp. destruct wd as [d|]; [|done]. simpl in *.
    split; [by eapply valid_prefix|]. f_equal. by apply tensors_prefix. }
  split.
  - destruct (L1Loss_forward_run s self out lab wd)
      as (s1 & r1 & Hrun1 & Hp1 & Ha1); [done..|].
    destruct (Hopt s1 Hp1) as [Hwd1 Heq1].
    destruct (L1Loss_forward_run s1 self out lab wd)
      as (s2 & r2 & Hrun2 & _ & Ha2);
      [by eapply valid_prefix|by eapply valid_ordered_prefix|done|].
    subst again run. rewrite Hrun1. cbn [fst snd]. rewrite Hrun2. cbn [fst snd].
    rewrite (tensors_prefix s s1), (tensors_ordered_prefix s s1), Heq1 in Ha2
      by done.
    eauto.
  - destruct (PeriodicL1Loss_forward_run s self out lab wd)
      as (s1 & r1 & Hrun1 & Hp1 & Ha1); [done..|].
    destruct (Hopt s1 Hp1) as [Hwd1 Heq1].
    destruct (PeriodicL1Loss_forward_run s1 self out lab wd)
      as (s2 & r2 & Hrun2 & _ & Ha2); [by eapply valid_prefix|done|].
    subst again' run'. rewrite Hrun1. cbn [fst snd]. rewrite Hrun2. cbn [fst snd].
    rewrite (tensors_prefix s s1), Heq1 in Ha2 by done.
    eauto.
Qed.
End Again.

(** ** Outputs and labels exchanged *)

Section Exchanged.
Context {num : Type} `{!Arith num}.
#[local] Abbreviation tensor := (tensor num).
#[local] Abbreviation store := (list tensor).

Lemma mapR_ext {A B} (f g : A → result B) l :
  Forall (λ x, f x = g x) l → mapR f l = mapR g l.
Proof.
  induction 1 as [|x l Hx _ IH]; [done|].
  cbn [mapR]. fold (mapR f). fold (mapR g). by rewrite Hx, IH.
Qed.

Lemma zipR_comm {A C} (f : A → A → result C) l k :
  Forall (λ x, ∀ y, f x y = f y x) l → zipR f l k = zipR f k l.
Proof.
  intros Hl. revert k. induction Hl as [|x l Hx _ IH]; intros [|y k]; try done.
  cbn [zipR]. fold (zipR f). by rewrite Hx, IH.
Qed.

(** Broadcasting treats its two operands alike. *)
Lemma broadcast_comm (f : num → num → num) (a b : tensor) :
  (∀ x y, f x y = f y x) → broadcast f a b = broadcast f b a.
Proof.
  intros Hf. revert b.
  induction a as [x|as_ IHa] using tensor_rows_ind; intros b;
    induction b as [y|bs IHb] using tensor_rows_ind.
  - cbn. by rewrite Hf.
  - cbn [broadcast]. f_equal. apply mapR_ext. exact IHb.
  - cbn [broadcast]. f_equal. apply mapR_ext.
    eapply Forall_impl; [exact IHa|]. intros ai Hai. apply Hai.
  - rewrite !broadcast_Arr_Arr.
    destruct (ndim (Arr as_) <? ndim (Arr bs)) eqn:Hab.
    { apply Nat.ltb_lt in Hab.
      assert (Hba : (ndim (Arr bs) <? ndim (Arr as_)) = false)
        by (apply Nat.ltb_ge; lia).
      rewrite Hba. f_equal. apply mapR_ext. exact IHb. }
    destruct (ndim (Arr bs) <? ndim (Arr as_)) eqn:Hba.
    { f_equal. apply mapR_ext.
      eapply Forall_impl; [exact IHa|]. intros ai Hai. apply Hai. }
    rewrite (Nat.eqb_sym (length bs)).
    destruct (length as_ =? length bs) eqn:Hlen.
    { f_equal. by apply zipR_comm. }
    apply Nat.eqb_neq in Hlen.
    destruct as_ as [|a0 [|a1 as_]], bs as [|b0 [|b1 bs]]; try done.
    all: f_equal; apply mapR_ext.
    all: try (eapply Forall_impl; [exact IHa|]; intros ai Hai; apply Hai).
    all: try (inversion_clear IHa as [|? ? Ha0 _];
              apply Forall_forall; intros bi _; apply Ha0).
Qed.

(** X12. The L1 loss is symmetric in the outputs and the labels, whatever
    their shapes, the weights and the area: in an arithmetic in which
    |a - b| = |b - a|, a call in which, for every key, the output and the
    label have changed places has the same outcome, the same value
    returned or the same exception raised. *)
Theorem L1_forward_symmetric (self : Loss num) out lab out' lab' wd
    (s : store) :
  (∀ a b : num, abs_diff a b = abs_diff b a) →
  valid s out → valid_ordered s lab → valid s out' → valid_ordered s lab' →
  valid_option s wd →
  keys lab' = keys lab →
  tensors s out' !! "area" = tensors s out !! "area" →
  (∀ key, key ∈ keys lab →
     ∃ x y, tensors s out !! key = Some x
            ∧ assoc (tensors_ordered s lab) key = Some y
            ∧ tensors s out' !! key = Some y
            ∧ assoc (tensors_ordered s lab') key = Some x) →
  let run := L1Loss_forward self out lab wd s in
  let run' := L1Loss_forward self out' lab' wd s in
  ∃ d, agrees run.1 run.2 d ∧ agrees run'.1 run'.2 d.
Proof.
  intros Hsym Hout Hlab Hout' Hlab' Hwd Hkeys' Harea Hkeys run run'.
  destruct (L1Loss_forward_run s self out lab wd)
    as (s1 & r1 & Hrun1 & _ & Ha1); [done..|].
  destruct (L1Loss_forward_run s self out' lab' wd)
    as (s2 & r2 & Hrun2 & _ & Ha2); [done..|].
  subst run run'. rewrite Hrun1, Hrun2. cbn [fst snd].
  rewrite Hkeys' in Ha2.
  rewrite (total_ext _ (L1_loss self (tensors s out) (tensors_ordered s lab)
                          (tensors s <$> wd))) in Ha2; [eauto|].
  intros key Hin. destruct (Hkeys key Hin) as (x & y & Hx & Hy & Hx' & Hy').
  unfold L1_loss, l1_elementwise. rewrite Hx, Hy, Hx', Hy', Harea.
  unfold l1_loss_none. by rewrite (broadcast_comm abs_diff y x).
Qed.

End Exchanged.

Lemma Q_abs_diff_sym (a b : Q) : abs_diff a b = abs_diff b a.
Proof.
  change (Qred (Qabs (Qred (a - b))) = Qred (Qabs (Qred (b - a)))).
  apply Qred_complete. rewrite !Qred_correct.
  assert (Hab : (a - b == - (b - a))%Q) by ring.
  by rewrite Hab, Qabs_opp.
Qed.

(** ** The further properties at sample calls *)

(** A call that raises KeyError('u'): [weight_dict] has the field [v] only. *)
Lemma L1Loss_forward_raises_only_witness :
  valid Sample.store Sample.output_uv
  ∧ valid_ordered Sample.store Sample.label_uv
  ∧ valid_option Sample.store (Some Sample.weights_v)
  ∧ (L1Loss_forward Sample.mean_twice Sample.output_uv Sample.label_uv
       (Some Sample.weights_v) Sample.store).2 = Raise (KeyError "u")
  ∧ (KeyError "u" = ValueError Broadcast
     ∨ ∃ key, key ∈ keys Sample.label_uv ∧ KeyError "u" = KeyError key
         ∧ (Sample.output_uv !! key = None
            ∨ ∃ d, Some Sample.weights_v = Some d ∧ d !! key = None)).
Proof.
  split; [sample|]. split; [sample|]. split; [sample|].
  assert (Hr : (L1Loss_forward Sample.mean_twice Sample.output_uv
                  Sample.label_uv (Some Sample.weights_v) Sample.store).2
               = Raise (KeyError "u")) by sample.
  split; [exact Hr|].
  apply (L1Loss_forward_raises_only Sample.mean_twice Sample.output_uv
           Sample.label_uv (Some Sample.weights_v) Sample.store);
    [sample..|exact Hr].
Defined.

(** A call that raises for the 3 samples of the field [v]. *)
Lemma PeriodicL1Loss_forward_raises_only_witness :
  valid Sample.store Sample.output_uv
  ∧ valid_option Sample.store None
  ∧ (PeriodicL1Loss_forward Sample.mean_twice Sample.output_uv
       Sample.label_uv None Sample.store).2
    = Raise (ValueError (OddLength 3 "v"))
  ∧ ∃ e, (PeriodicL1Loss_forward Sample.mean_twice Sample.output_uv
            Sample.label_uv None Sample.store).2 = Raise e
       ∧ (e = ValueError Broadcast
          ∨ ∃ key, key ∈ keys Sample.label_uv ∧
              ((∃ n, e = ValueError (OddLength n key)
                     ∧ odd_length (tensors Sample.store Sample.output_uv) key n)
               ∨ (e = KeyError key
                  ∧ (Sample.output_uv !! key = None
                     ∨ ∃ d : gmap string loc, None = Some d ∧ d !! key = None))
               ∨ (e = AssertionError
                  ∧ ∃ x, tensors Sample.store Sample.output_uv !! key
                         = Some (Scal x)))).
Proof.
  split; [sample|]. split; [sample|].
  assert (Hr : (PeriodicL1Loss_forward Sample.mean_twice Sample.output_uv
                  Sample.label_uv None Sample.store).2
               = Raise (ValueError (OddLength 3 "v"))) by sample.
  split; [exact Hr|]. eexists. split; [exact Hr|].
  apply (PeriodicL1Loss_forward_raises_only Sample.mean_twice Sample.output_uv
           Sample.label_uv None Sample.store); [sample..|exact Hr].
Defined.

(** The field [v] has a label and no output. *)
Lemma forward_raises_KeyError_for_missing_output_witness :
  Sample.output_u !! "v" = None
  ∧ (∃ s1 v, L1Loss_forward Sample.mean_twice Sample.output_u [("u", 2)] None
               Sample.store = (s1, Ok v))
  ∧ ∃ s1, L1Loss_forward Sample.mean_twice Sample.output_u Sample.label_uv None
            Sample.store = (s1, Raise (KeyError "v")).
Proof.
  split; [sample|]. split; [eexists _, _; sample|]. eexists.
  eapply (proj1 (forward_raises_KeyError_for_missing_output Sample.mean_twice
                   Sample.output_u [("u", 2)] "v" 3 [] None Sample.store
                   ltac:(sample))).
  sample.
Defined.

(** The weight 2.0 as a float and as a dictionary over the fields. *)
Lemma forward_reads_weight_of_label_keys_only_witness :
  reduction More_samples.mean_twice_by_field = reduction Sample.mean_twice
  ∧ L1Loss_forward More_samples.mean_twice_by_field Sample.output_uv
      Sample.label_uv None Sample.store
    = L1Loss_forward Sample.mean_twice Sample.output_uv Sample.label_uv None
        Sample.store.
Proof.
  split; [done|].
  destruct (forward_reads_weight_of_label_keys_only
              More_samples.mean_twice_by_field Sample.mean_twice
              Sample.output_uv Sample.label_uv None Sample.store)
    as (Hsame & _); [done| |exact Hsame].
  intros key Hin. cbn [keys map fst Sample.label_uv] in Hin.
  apply elem_of_cons in Hin as [->|Hin]; [sample|].
  apply list_elem_of_singleton in Hin as ->. sample.
Defined.

(** The unweighted loss 23/6 of the fields [u] and [v], and the weight 2. *)
Lemma L1_float_weight_squares_witness :
  ("mean" = "mean" ∨ "mean" = "sum")
  ∧ valid Sample.store Sample.output_uv
  ∧ valid_ordered Sample.store Sample.label_uv
  ∧ valid_option Sample.store None
  ∧ returns (L1Loss_forward (mkLoss "mean" WNone) Sample.output_uv
               Sample.label_uv None Sample.store) (Scal (23 # 6)%Q)
  ∧ ∃ q', returns (L1Loss_forward (mkLoss "mean" (WFloat 2%Q)) Sample.output_uv
                     Sample.label_uv None Sample.store) (Scal q')
          ∧ (q' == (23 # 6) * 2 * 2)%Q.
Proof.
  assert (Hret : returns (L1Loss_forward (mkLoss "mean" WNone) Sample.output_uv
                            Sample.label_uv None Sample.store)
                   (Scal (23 # 6)%Q)).
  { eexists. split; sample. }
  split; [by left|]. split; [sample|]. split; [sample|]. split; [sample|].
  split; [exact Hret|].
  apply L1_float_weight_squares; [by left|sample..|exact Hret].
Defined.

(** The unweighted periodic loss 2 of the field [u], and the weight 2. *)
Lemma periodic_float_weight_scales_witness :
  ("mean" = "mean" ∨ "mean" = "sum")
  ∧ valid Sample.store Sample.output_u
  ∧ valid_option Sample.store None
  ∧ returns (PeriodicL1Loss_forward (mkLoss "mean" WNone) Sample.output_u
               Sample.label_u None Sample.store) (Scal 2%Q)
  ∧ ∃ q', returns (PeriodicL1Loss_forward (mkLoss "mean" (WFloat 2%Q))
                     Sample.output_u Sample.label_u None Sample.store) (Scal q')
          ∧ (q' == 2 * 2)%Q.
Proof.
  assert (Hret : returns (PeriodicL1Loss_forward (mkLoss "mean" WNone)
                            Sample.output_u Sample.label_u None Sample.store)
                   (Scal 2%Q)).
  { eexists. split; sample. }
  split; [by left|]. split; [sample|]. split; [sample|]. split; [exact Hret|].
  apply periodic_float_weight_scales; [by left|sample..|exact Hret].
Defined.

(** The periodic loss of the fields [u] and [w], from that of [u],
    |1-3| = 2, and that of [w], (|2-5| + |2-1|)/2 = 2. *)
Lemma periodic_forward_adds_over_parts_witness :
  (reduction Sample.mean_unweighted = "mean"
   ∨ reduction Sample.mean_unweighted = "sum")
  ∧ valid More_samples.periodic_store More_samples.output_uw
  ∧ valid_option More_samples.periodic_store None
  ∧ returns (PeriodicL1Loss_forward Sample.mean_unweighted
               More_samples.output_uw More_samples.label_u None
               More_samples.periodic_store) (Scal 2%Q)
  ∧ returns (PeriodicL1Loss_forward Sample.mean_unweighted
               More_samples.output_uw More_samples.label_w None
               More_samples.periodic_store) (Scal 2%Q)
  ∧ ∃ q, returns (PeriodicL1Loss_forward Sample.mean_unweighted
                    More_samples.output_uw
                    (More_samples.label_u ++ More_samples.label_w) None
                    More_samples.periodic_store) (Scal q)
         ∧ (q == 2 + 2)%Q.
Proof.
  assert (Hu : returns (PeriodicL1Loss_forward Sample.mean_unweighted
                          More_samples.output_uw More_samples.label_u None
                          More_samples.periodic_store) (Scal 2%Q)).
  { eexists. split; sample. }
  assert (Hw : returns (PeriodicL1Loss_forward Sample.mean_unweighted
                          More_samples.output_uw More_samples.label_w None
                          More_samples.periodic_store) (Scal 2%Q)).
  { eexists. split; sample. }
  split; [by left|]. split; [sample|]. split; [sample|].
  split; [exact Hu|]. split; [exact Hw|].
  apply (proj2 (periodic_forward_adds_over_parts Sample.mean_unweighted
                  More_samples.output_uw More_samples.label_u
                  More_samples.label_w None More_samples.periodic_store
                  ltac:(by left) ltac:(sample) ltac:(sample))); done.
Defined.

(** The L1 loss of the fields [u] and [v], 23/6, from that of [u], 3/2, and
    that of [v], 7/3. *)
Lemma L1_forward_adds_over_parts_witness :
  (reduction Sample.mean_unweighted = "mean"
   ∨ reduction Sample.mean_unweighted = "sum")
  ∧ NoDup (keys ([("u", 2)] ++ [("v", 3)]))
  ∧ valid Sample.store Sample.output_uv
  ∧ valid_ordered Sample.store ([("u", 2)] ++ [("v", 3)])
  ∧ valid_option Sample.store None
  ∧ returns (L1Loss_forward Sample.mean_unweighted Sample.output_uv
               [("u", 2)] None Sample.store) (Scal (3 # 2)%Q)
  ∧ returns (L1Loss_forward Sample.mean_unweighted Sample.output_uv
               [("v", 3)] None Sample.store) (Scal (7 # 3)%Q)
  ∧ ∃ q, returns (L1Loss_forward Sample.mean_unweighted Sample.output_uv
                    ([("u", 2)] ++ [("v", 3)]) None Sample.store) (Scal q)
         ∧ (q == (3 # 2) + (7 # 3))%Q.
Proof.
  assert (Hu : returns (L1Loss_forward Sample.mean_unweighted Sample.output_uv
                          [("u", 2)] None Sample.store) (Scal (3 # 2)%Q)).
  { eexists. split; sample. }
  assert (Hv : returns (L1Loss_forward Sample.mean_unweighted Sample.output_uv
                          [("v", 3)] None Sample.store) (Scal (7 # 3)%Q)).
  { eexists. split; sample. }
  assert (Hnd : NoDup (keys ([("u", 2)] ++ [("v", 3)]))).
  { cbn [app keys map fst]. apply NoDup_cons. split.
    - intros Hin%list_elem_of_singleton. discriminate Hin.
    - apply NoDup_singleton. }
  split; [by left|]. split; [exact Hnd|]. split; [sample|]. split; [sample|].
  split; [sample|]. split; [exact Hu|]. split; [exact Hv|].
  apply (proj2 (L1_forward_adds_over_parts Sample.mean_unweighted
                  Sample.output_uv [("u", 2)] [("v", 3)] None Sample.store
                  ltac:(by left) Hnd ltac:(sample) ltac:(sample) ltac:(sample)));
    done.
Defined.

Ltac sample_uv_key Hin :=
  cbn [keys map fst Sample.label_uv] in Hin;
  apply elem_of_cons in Hin as [->|Hin];
    [|apply list_elem_of_singleton in Hin as ->].

(** The fields [u] and [v]: the loss 23/6 is not negative. *)
Lemma L1_unweighted_nonnegative_zero_iff_equal_witness :
  weight Sample.mean_unweighted = WNone
  ∧ (reduction Sample.mean_unweighted = "mean"
     ∨ reduction Sample.mean_unweighted = "sum")
  ∧ valid Sample.store Sample.output_uv
  ∧ valid_ordered Sample.store Sample.label_uv
  ∧ Sample.output_uv !! "area" = None
  ∧ ∃ q, returns (L1Loss_forward Sample.mean_unweighted Sample.output_uv
                    Sample.label_uv None Sample.store) (Scal q)
         ∧ (0 <= q)%Q.
Proof.
  split; [done|]. split; [by left|]. split; [sample|]. split; [sample|].
  split; [sample|].
  destruct (L1_unweighted_nonnegative_zero_iff_equal Sample.mean_unweighted
              Sample.output_uv Sample.label_uv Sample.store)
    as (q & Hq & Hnn & _); [done|by left|sample..| |by exists q].
  intros key Hin. sample_uv_key Hin.
  - exists (Arr [Scal 1%Q; Scal 3%Q]), (Arr [Scal 2%Q; Scal 1%Q]).
    repeat split; first [sample | intros _; vm_compute; lia].
  - exists (Arr [Scal 1%Q; Scal 2%Q; Scal 4%Q]),
      (Arr [Scal 0%Q; Scal 0%Q; Scal 0%Q]).
    repeat split; first [sample | intros _; vm_compute; lia].
Defined.

(** The field [u]: the periodic loss 2 is not negative. *)
Lemma periodic_unweighted_nonnegative_zero_iff_periodic_witness :
  weight Sample.mean_unweighted = WNone
  ∧ (reduction Sample.mean_unweighted = "mean"
     ∨ reduction Sample.mean_unweighted = "sum")
  ∧ valid Sample.store Sample.output_u
  ∧ Sample.output_u !! "area" = None
  ∧ ∃ q, returns (PeriodicL1Loss_forward Sample.mean_unweighted Sample.output_u
                    Sample.label_u None Sample.store) (Scal q)
         ∧ (0 <= q)%Q.
Proof.
  split; [done|]. split; [by left|]. split; [sample|]. split; [sample|].
  destruct (periodic_unweighted_nonnegative_zero_iff_periodic
              Sample.mean_unweighted Sample.output_u Sample.label_u Sample.store)
    as (q & Hq & Hnn & _); [done|by left|sample..| |by exists q].
  intros key Hin. cbn [keys map fst Sample.label_u] in Hin.
  apply list_elem_of_singleton in Hin as ->.
  exists [Scal 1%Q; Scal 3%Q]. repeat split; first [sample | intros _; vm_compute; lia].
Defined.

(** A call with an area and a [weight_dict], made twice. *)
Lemma forward_again_has_same_outcome_witness :
  valid Sample.store Sample.output_u_area
  ∧ valid_ordered Sample.store Sample.label_u
  ∧ valid_option Sample.store (Some Sample.weights_uv)
  ∧ ∃ d,
      agrees (L1Loss_forward Sample.mean_twice Sample.output_u_area
                Sample.label_u (Some Sample.weights_uv) Sample.store).1
             (L1Loss_forward Sample.mean_twice Sample.output_u_area
                Sample.label_u (Some Sample.weights_uv) Sample.store).2 d
      ∧ agrees
          (L1Loss_forward Sample.mean_twice Sample.output_u_area Sample.label_u
             (Some Sample.weights_uv)
             (L1Loss_forward Sample.mean_twice Sample.output_u_area
                Sample.label_u (Some Sample.weights_uv) Sample.store).1).1
          (L1Loss_forward Sample.mean_twice Sample.output_u_area Sample.label_u
             (Some Sample.weights_uv)
             (L1Loss_forward Sample.mean_twice Sample.output_u_area
                Sample.label_u (Some Sample.weights_uv) Sample.store).1).2 d.
Proof.
  split; [sample|]. split; [sample|]. split; [sample|].
  destruct (forward_again_has_same_outcome Sample.mean_twice
              Sample.output_u_area Sample.label_u (Some Sample.weights_uv)
              Sample.store) as (Hsame & _); [sample..|exact Hsame].
Defined.

(** The fields [u] and [v] with outputs and labels exchanged: both calls
    return 23/6. *)
Lemma L1_forward_symmetric_witness :
  (∀ a b : Q, abs_diff a b = abs_diff b a)
  ∧ valid Sample.store Sample.output_uv
  ∧ valid_ordered Sample.store Sample.label_uv
  ∧ valid Sample.store More_samples.output_swapped
  ∧ valid_ordered Sample.store More_samples.label_swapped
  ∧ valid_option Sample.store None
  ∧ keys More_samples.label_swapped = keys Sample.label_uv
  ∧ tensors Sample.store More_samples.output_swapped !! "area"
    = tensors Sample.store Sample.output_uv !! "area"
  ∧ ∃ d,
      agrees (L1Loss_forward Sample.mean_unweighted Sample.output_uv
                Sample.label_uv None Sample.store).1
             (L1Loss_forward Sample.mean_unweighted Sample.output_uv
                Sample.label_uv None Sample.store).2 d
      ∧ agrees (L1Loss_forward Sample.mean_unweighted
                  More_samples.output_swapped More_samples.label_swapped None
                  Sample.store).1
               (L1Loss_forward Sample.mean_unweighted
                  More_samples.output_swapped More_samples.label_swapped None
                  Sample.store).2 d.
Proof.
  split; [exact Q_abs_diff_sym|]. split; [sample|]. split; [sample|].
  split; [sample|]. split; [sample|]. split; [sample|]. split; [sample|].
  split; [sample|].
  apply (L1_forward_symmetric Sample.mean_unweighted Sample.output_uv
           Sample.label_uv More_samples.output_swapped
           More_samples.label_swapped None Sample.store);
    [exact Q_abs_diff_sym|sample..|].
  intros key Hin. sample_uv_key Hin.
  - exists (Arr [Scal 1%Q; Scal 3%Q]), (Arr [Scal 2%Q; Scal 1%Q]).
    repeat split; sample.
  - exists (Arr [Scal 1%Q; Scal 2%Q; Scal 4%Q]),
      (Arr [Scal 0%Q; Scal 0%Q; Scal 0%Q]).
    repeat split; sample.
Defined.
